(** * Blog front end: reconciler, fallback writer and local persistence

  A shallow embedding of the client-side logic of the blog application:
  - [lib/local-storage.ts]   : the four persistence operations and the
                               generator of local identifiers;
  - [components/PostList.tsx]: the merge / dedup / sort of remote and local
                               posts and the choice of the rendered state;
  - [components/PostForm.tsx]: the [onError] handler of the create mutation
                               (fallback writer) and the error banner;
  - [components/PostDetail.tsx]: the callbacks of the delete mutation.

  Definitions come first, theorems afterwards. *)

From Stdlib Require Import ZArith String Ascii List Lia DecimalString.
From Stdlib Require Import DecimalPos DecimalZ.
From stdpp Require Import base list strings gmap sorting.

Set Warnings "-register-all,-clear-no-such-hyp".

(* ===================================================================== *)
(** * Part I. Definitions                                                  *)
(* ===================================================================== *)

(** ** The JavaScript platform the components run on *)

Module JS.

(** Exceptions the modelled fragment can raise. *)
Inductive JSError :=
| TypeError            (* property access on null, call of a non-function *)
| SyntaxError          (* JSON.parse on text that is not JSON *)
| SecurityError        (* storage access denied *)
| QuotaExceededError.  (* storage full *)

Inductive result (A : Type) :=
| Ok (a : A)
| Throw (e : JSError).
Arguments Ok {A} a.
Arguments Throw {A} e.

(** Values that [JSON.parse] can produce. *)
Inductive JSValue :=
| JNull
| JBool (b : bool)
| JNum (n : Z)
| JStr (s : string)
| JArr (items : list JSValue)
| JObj (fields : list (string * JSValue)).

(** What a thrown or rejected value looks like to [instanceof Error]. *)
Inductive Thrown :=
| ErrorObject (message : string)   (* an [Error] carrying a message *)
| NotAnError.                      (* anything else that was thrown *)

(** [s.startsWith(p)] *)
Definition String_startsWith (s p : string) : bool := String.prefix p s.

(** [s.includes(needle)]: case-sensitive substring test. *)
Fixpoint String_includes (s needle : string) : bool :=
  String.prefix needle s ||
  match s with
  | EmptyString => false
  | String _ s' => String_includes s' needle
  end.

(** [s.substr(start, len)] *)
Definition String_substr (s : string) (start len : nat) : string :=
  String.substring start len s.

(** An integral number below [10^21] interpolated in a template literal. *)
Definition Number_toString (n : Z) : string :=
  NilZero.string_of_int (Z.to_int n).

(** Own property of an object; [None] is [undefined].  A parsed object has
    each key once. *)
Fixpoint own_property (k : string) (fields : list (string * JSValue))
  : option JSValue :=
  match fields with
  | [] => None
  | (k', v) :: rest => if String.eqb k' k then Some v else own_property k rest
  end.

(** [v.id]: reading a property of [null] raises; JSON primitives and arrays
    have no property of that name. *)
Definition get_id (v : JSValue) : result (option JSValue) :=
  match v with
  | JNull => Throw TypeError
  | JObj fields => Ok (own_property "id" fields)
  | _ => Ok None
  end.

(** Truthiness of a JSON value. *)
Definition truthy (v : JSValue) : bool :=
  match v with
  | JNull => false
  | JBool b => b
  | JNum n => negb (n =? 0)%Z
  | JStr s => negb (String.eqb s "")
  | JArr _ | JObj _ => true
  end.

(** A method such as [findIndex], [find] or [filter] exists on arrays only:
    on [null] the property access raises, on any other JSON value the
    property is [undefined] and calling it raises. *)
Definition as_array (v : JSValue) : result (list JSValue) :=
  match v with
  | JArr l => Ok l
  | _ => Throw TypeError
  end.

(** [x === s] for a string [s]. *)
Definition strict_eq_string (x : option JSValue) (s : string) : bool :=
  match x with
  | Some (JStr s') => String.eqb s' s
  | _ => false
  end.

Section ArrayMethods.
Context {A : Type}.

(** [Array.prototype.findIndex] with a callback that may raise;
    the result is [-1] when no element satisfies the callback. *)
Fixpoint findIndex_from (f : A -> result bool) (l : list A) (i : Z)
  : result Z :=
  match l with
  | [] => Ok (-1)%Z
  | x :: l' =>
      match f x with
      | Throw e => Throw e
      | Ok true => Ok i
      | Ok false => findIndex_from f l' (i + 1)%Z
      end
  end.
Definition Array_findIndex (f : A -> result bool) (l : list A) : result Z :=
  findIndex_from f l 0%Z.

(** [Array.prototype.find]; [None] is [undefined]. *)
Fixpoint Array_find (f : A -> result bool) (l : list A) : result (option A) :=
  match l with
  | [] => Ok None
  | x :: l' =>
      match f x with
      | Throw e => Throw e
      | Ok true => Ok (Some x)
      | Ok false => Array_find f l'
      end
  end.

(** [Array.prototype.filter] *)
Fixpoint Array_filter (f : A -> result bool) (l : list A) : result (list A) :=
  match l with
  | [] => Ok []
  | x :: l' =>
      match f x with
      | Throw e => Throw e
      | Ok b =>
          match Array_filter f l' with
          | Throw e => Throw e
          | Ok r => Ok (if b then x :: r else r)
          end
      end
  end.

(** [Array.prototype.sort(compareFn)].  The comparator yields a number,
    [None] standing for [NaN], which the sort reads as [+0].  The
    language requires the sort to be stable; for a consistent comparator
    this fixes the result, computed here by stable insertion. *)
Definition SortCompare (compareFn : A -> A -> option Z) (x y : A) : Z :=
  match compareFn x y with
  | Some v => v
  | None => 0%Z
  end.

Fixpoint sort_insert (compareFn : A -> A -> option Z) (x : A) (l : list A)
  : list A :=
  match l with
  | [] => [x]
  | y :: l' =>
      if (SortCompare compareFn x y <=? 0)%Z
      then x :: y :: l'
      else y :: sort_insert compareFn x l'
  end.

Definition Array_sort (compareFn : A -> A -> option Z) (l : list A) : list A :=
  foldr (sort_insert compareFn) [] l.
End ArrayMethods.

End JS.

(** ** Effects: browser storage and the observable effects of a handler *)

Module Runtime.
Import JS.

(** A string kept in [localStorage], represented by what the code can observe
    of it: whether it is empty and what [JSON.parse] makes of it. *)
Inductive StoredText :=
| Blank                      (* the empty string *)
| Malformed                  (* non-empty text on which [JSON.parse] raises *)
| Serialized (v : JSValue).  (* [JSON.stringify v], or any text parsing to [v] *)

(** The browser as the persistence functions see it. *)
Record Browser := {
  hasWindow : bool;                   (* [typeof window !== 'undefined'] *)
  getItemRaises : bool;               (* reading the storage is denied *)
  setItemRaises : bool;               (* writing the storage fails *)
  items : gmap string StoredText      (* the contents of [localStorage] *)
}.

(** Effects other than the storage contents, in the order they happen. *)
Inductive Event :=
| ConsoleError (msg : string)
| ConsoleWarn (msg : string)
| StorageSetItem (key : string)
| RemoteDeleteRequest (id : string)
| InvalidateQueries (queryKey : string)
| RouterPush (href : string)
| SetShowSuccessMessage (b : bool)
| FormReset
| SetTags (ts : list string)
| SetTagInput (s : string)
| CallOnSuccess
| SetTimeout (callback : list Event) (delay : Z).

(** Computations that read and write the browser, record the effects they
    perform, and may raise. *)
Definition M (A : Type) : Type := Browser -> result A * Browser * list Event.

Definition ret {A} (a : A) : M A := fun b => (Ok a, b, []).

Definition bind {A B} (m : M A) (k : A -> M B) : M B :=
  fun b =>
    match m b with
    | (Ok a, b', evs) =>
        match k a b' with
        | (r, b'', evs') => (r, b'', evs ++ evs')
        end
    | (Throw e, b', evs) => (Throw e, b', evs)
    end.

Definition throw {A} (e : JSError) : M A := fun b => (Throw e, b, []).

(** [try { body } catch (error) { handler }] *)
Definition try_catch {A} (body : M A) (handler : JSError -> M A) : M A :=
  fun b =>
    match body b with
    | (Ok a, b', evs) => (Ok a, b', evs)
    | (Throw e, b', evs) =>
        match handler e b' with
        | (r, b'', evs') => (r, b'', evs ++ evs')
        end
    end.

Definition lift {A} (r : result A) : M A := fun b => (r, b, []).

Definition emit (e : Event) : M unit := fun b => (Ok tt, b, [e]).

Definition get_browser : M Browser := fun b => (Ok b, b, []).

Definition put_items (m : gmap string StoredText) : M unit :=
  fun b =>
    (Ok tt,
     {| hasWindow := hasWindow b;
        getItemRaises := getItemRaises b;
        setItemRaises := setItemRaises b;
        items := m |},
     []).

Declare Scope js_scope.
Delimit Scope js_scope with js.
Notation "'let*' x := m 'in' k" := (bind m (fun x => k))
  (at level 10, x name, m at level 100, k at level 200) : js_scope.
Notation "m ;;; k" := (bind m (fun _ => k))
  (at level 100, k at level 200, right associativity) : js_scope.

(** [console.error(...)], [console.warn(...)] *)
Definition console_error (msg : string) : M unit := emit (ConsoleError msg).
Definition console_warn (msg : string) : M unit := emit (ConsoleWarn msg).

(** [localStorage.getItem(key)]; [None] is [null]. *)
Definition localStorage_getItem (key : string) : M (option StoredText) :=
  (let* b := get_browser in
   if getItemRaises b then throw SecurityError
   else ret (items b !! key))%js.

(** [localStorage.setItem(key, text)] *)
Definition localStorage_setItem (key : string) (text : StoredText) : M unit :=
  (let* b := get_browser in
   if setItemRaises b then throw QuotaExceededError
   else (put_items (<[key := text]> (items b)) ;;; emit (StorageSetItem key)))%js.

(** [JSON.parse(text)] *)
Definition JSON_parse (text : StoredText) : result JSValue :=
  match text with
  | Blank => Throw SyntaxError
  | Malformed => Throw SyntaxError
  | Serialized v => Ok v
  end.

(** [JSON.stringify(v)] *)
Definition JSON_stringify (v : JSValue) : StoredText := Serialized v.

End Runtime.

(** ** lib/local-storage.ts *)

Module LocalStorage.
Import JS Runtime.

Record Author := {
  author_id : string;
  author_name : string;
  author_avatarUrl : option string    (* [None] is [null] *)
}.

Record LocalPost := {
  id : string;
  title : string;
  body : string;
  tags : list string;
  publishedAt : string;
  author : Author
}.

(** The object a [LocalPost] is, as [JSON.stringify] and the array callbacks
    see it. *)
Definition Author_toJSON (a : Author) : JSValue :=
  JObj [("id", JStr (author_id a));
        ("name", JStr (author_name a));
        ("avatarUrl", match author_avatarUrl a with
                      | Some u => JStr u
                      | None => JNull
                      end)].

Definition toJSON (p : LocalPost) : JSValue :=
  JObj [("id", JStr (id p));
        ("title", JStr (title p));
        ("body", JStr (body p));
        ("tags", JArr (map JStr (tags p)));
        ("publishedAt", JStr (publishedAt p));
        ("author", Author_toJSON (author p))].

Definition STORAGE_KEY : string := "blog_posts".

(** The callbacks [(p) => p.id === id] and [(p) => p.id !== id]. *)
Definition id_equals (target : string) (p : JSValue) : result bool :=
  match get_id p with
  | Throw e => Throw e
  | Ok x => Ok (strict_eq_string x target)
  end.

Definition id_differs (target : string) (p : JSValue) : result bool :=
  match get_id p with
  | Throw e => Throw e
  | Ok x => Ok (negb (strict_eq_string x target))
  end.

Definition getLocalPosts : M JSValue :=
  (let* b := get_browser in
   if negb (hasWindow b) then ret (JArr [])
   else
     try_catch
       (let* stored := localStorage_getItem STORAGE_KEY in
        match stored with
        | None => ret (JArr [])
        | Some Blank => ret (JArr [])
        | Some text => lift (JSON_parse text)
        end)
       (fun _ =>
          console_error "Failed to read from localStorage:" ;;;
          ret (JArr [])))%js.

Definition saveLocalPost (post : LocalPost) : M unit :=
  (let* b := get_browser in
   if negb (hasWindow b) then ret tt
   else
     try_catch
       (let* posts := getLocalPosts in
        let* arr := lift (as_array posts) in
        let* index := lift (Array_findIndex (id_equals (id post)) arr) in
        let posts' :=
          if (index >=? 0)%Z
          then <[Z.to_nat index := toJSON post]> arr
          else arr ++ [toJSON post] in
        localStorage_setItem STORAGE_KEY (JSON_stringify (JArr posts')))
       (fun _ => console_error "Failed to save to localStorage:"))%js.

Definition deleteLocalPost (target : string) : M unit :=
  (let* b := get_browser in
   if negb (hasWindow b) then ret tt
   else
     try_catch
       (let* posts := getLocalPosts in
        let* arr := lift (as_array posts) in
        let* filtered := lift (Array_filter (id_differs target) arr) in
        localStorage_setItem STORAGE_KEY (JSON_stringify (JArr filtered)))
       (fun _ => console_error "Failed to delete from localStorage:"))%js.

(** [posts.find(...) || null]; [None] is [null]. *)
Definition getLocalPost (target : string) : M (option JSValue) :=
  (let* posts := getLocalPosts in
   let* arr := lift (as_array posts) in
   let* found := lift (Array_find (id_equals target) arr) in
   ret (match found with
        | Some p => if truthy p then Some p else None
        | None => None
        end))%js.

(** [`local_${Date.now()}_${Math.random().toString(36).substr(2, 9)}`];
    [now] is the reading of [Date.now()] and [random36] the text
    [Math.random().toString(36)]. *)
Definition generateLocalPostId (now : Z) (random36 : string) : string :=
  "local_" +:+ Number_toString now +:+ "_" +:+ String_substr random36 2 9.

End LocalStorage.

(** ** Dates: the UTC fragment of the Date Time String Format *)

Module JSDate.

Definition msPerDay : Z := 86400000.

(** Days since 1970-01-01 of a proleptic Gregorian date. *)
Definition days_from_civil (y m d : Z) : Z :=
  let y' := if (m <=? 2)%Z then (y - 1)%Z else y in
  let era := (y' / 400)%Z in
  let yoe := (y' - era * 400)%Z in
  let mp := if (m >? 2)%Z then (m - 3)%Z else (m + 9)%Z in
  let doy := ((153 * mp + 2) / 5 + d - 1)%Z in
  let doe := (yoe * 365 + yoe / 4 - yoe / 100 + doy)%Z in
  (era * 146097 + doe - 719468)%Z.

(** Year, month and day of a number of days since 1970-01-01. *)
Definition civil_from_days (z : Z) : Z * Z * Z :=
  let z' := (z + 719468)%Z in
  let era := (z' / 146097)%Z in
  let doe := (z' - era * 146097)%Z in
  let yoe := ((doe - doe / 1460 + doe / 36524 - doe / 146096) / 365)%Z in
  let doy := (doe - (365 * yoe + yoe / 4 - yoe / 100))%Z in
  let mp := ((5 * doy + 2) / 153)%Z in
  let d := (doy - (153 * mp + 2) / 5 + 1)%Z in
  let m := if (mp <? 10)%Z then (mp + 3)%Z else (mp - 9)%Z in
  let y := (yoe + era * 400 + (if (m <=? 2)%Z then 1 else 0))%Z in
  (y, m, d).

Definition digit_value (c : ascii) : option Z :=
  let n := nat_of_ascii c in
  if (48 <=? n)%nat && (n <=? 57)%nat then Some (Z.of_nat (n - 48)) else None.

(** Value of a non-empty string of decimal digits. *)
Fixpoint digits_from (acc : Z) (s : string) : option Z :=
  match s with
  | EmptyString => Some acc
  | String c s' =>
      match digit_value c with
      | Some d => digits_from (10 * acc + d)%Z s'
      | None => None
      end
  end.

Definition digits (s : string) : option Z :=
  match s with
  | EmptyString => None
  | _ => digits_from 0%Z s
  end.

Definition field (s : string) (start len : nat) : option Z :=
  if (String.length (String.substring start len s) =? len)%nat
  then digits (String.substring start len s)
  else None.

Definition char_is (s : string) (i : nat) (c : string) : bool :=
  String.eqb (String.substring i 1 s) c.

Definition in_range (lo hi : Z) (o : option Z) : option Z :=
  match o with
  | Some v => if (lo <=? v)%Z && (v <=? hi)%Z then Some v else None
  | None => None
  end.

(** [YYYY-MM-DD] at the start of [s], as days since the epoch; the date must
    exist in the calendar. *)
Definition parse_date (s : string) : option Z :=
  match field s 0 4, in_range 1 12 (field s 5 2), in_range 1 31 (field s 8 2) with
  | Some y, Some m, Some d =>
      if char_is s 4 "-" && char_is s 7 "-" then
        let days := days_from_civil y m d in
        match civil_from_days days with
        | (y', m', d') =>
            if (y' =? y)%Z && (m' =? m)%Z && (d' =? d)%Z then Some days else None
        end
      else None
  | _, _, _ => None
  end.

(** [HH:mm:ss] starting at position 11, in milliseconds. *)
Definition parse_time (s : string) : option Z :=
  match in_range 0 23 (field s 11 2), in_range 0 59 (field s 14 2),
        in_range 0 59 (field s 17 2) with
  | Some h, Some mi, Some sec =>
      if char_is s 10 "T" && char_is s 13 ":" && char_is s 16 ":"
      then Some (h * 3600000 + mi * 60000 + sec * 1000)%Z
      else None
  | _, _, _ => None
  end.

(** [new Date(s).getTime()] for [YYYY-MM-DD], [YYYY-MM-DDTHH:mm:ssZ] and
    [YYYY-MM-DDTHH:mm:ss.sssZ]; [None] is [NaN].  Strings of another shape
    are not covered by this fragment. *)
Definition getTime (s : string) : option Z :=
  match parse_date s with
  | None => None
  | Some days =>
      match String.length s with
      | 10%nat => Some (days * msPerDay)%Z
      | 20%nat =>
          match parse_time s with
          | Some t => if char_is s 19 "Z" then Some (days * msPerDay + t)%Z else None
          | None => None
          end
      | 24%nat =>
          match parse_time s, field s 20 3 with
          | Some t, Some ms =>
              if char_is s 19 "." && char_is s 23 "Z"
              then Some (days * msPerDay + t + ms)%Z
              else None
          | _, _ => None
          end
      | _ => None
      end
  end.

(** Decimal rendering of [n >= 0] on at least [width] digits. *)
Definition pad (width : nat) (n : Z) : string :=
  let s := JS.Number_toString n in
  String.concat "" (repeat "0"%string (width - String.length s)) +:+ s.

(** [new Date(ms).toISOString()], for a time value in the valid range. *)
Definition toISOString (ms : Z) : string :=
  let days := (ms / msPerDay)%Z in
  let rest := (ms mod msPerDay)%Z in
  match civil_from_days days with
  | (y, m, d) =>
      let year :=
        if (0 <=? y)%Z && (y <=? 9999)%Z then pad 4 y
        else if (y <? 0)%Z then "-" +:+ pad 6 (- y)
        else "+" +:+ pad 6 y in
      year +:+ "-" +:+ pad 2 m +:+ "-" +:+ pad 2 d +:+ "T" +:+
      pad 2 (rest / 3600000) +:+ ":" +:+ pad 2 (rest mod 3600000 / 60000) +:+ ":" +:+
      pad 2 (rest mod 60000 / 1000) +:+ "." +:+ pad 3 (rest mod 1000) +:+ "Z"
  end.

End JSDate.

(** ** components/PostList.tsx *)

Module PostList.
Import JS.

(** An entry of the list view: [{ id, title, publishedAt, author: { name } }]. *)
Record AuthorName := { name : string }.

Record PostSummary := {
  id : string;
  title : string;
  publishedAt : string;
  author : AuthorName
}.

Record GetPostsQuery := { posts : list PostSummary }.

(** What [useGetPostsQuery] hands to the component. *)
Record QueryState := {
  data : option GetPostsQuery;   (* [None] is [undefined] *)
  isLoading : bool;
  error : option Thrown
}.

(** What the component renders below its header. *)
Inductive Listing :=
| NoPosts                              (* the "no posts" message *)
| PostLinks (entries : list PostSummary).

Inductive View :=
| LoadingSpinner
| Page (showCreateForm : bool) (listing : Listing).

(** [data?.posts || []] *)
Definition serverPosts (data : option GetPostsQuery) : list PostSummary :=
  match data with
  | Some d => posts d
  | None => []
  end.

Definition convertedLocalPosts (localPosts : list LocalStorage.LocalPost)
  : list PostSummary :=
  map (fun localPost =>
         {| id := LocalStorage.id localPost;
            title := LocalStorage.title localPost;
            publishedAt := LocalStorage.publishedAt localPost;
            author :=
              {| name := LocalStorage.author_name (LocalStorage.author localPost) |} |})
      localPosts.

Definition allPosts (server converted : list PostSummary) : list PostSummary :=
  server ++ converted.

(** The [reduce] that drops every entry whose id is already accumulated. *)
Definition uniquePosts (all : list PostSummary) : list PostSummary :=
  fold_left
    (fun acc post =>
       match List.find (fun p => String.eqb (id p) (id post)) acc with
       | None => acc ++ [post]
       | Some _ => acc
       end)
    all [].

Section Reconciler.

(** [new Date(s).getTime()]; [None] is [NaN]. *)
Variable getTime : string -> option Z.

(** The comparator [(a, b) => dateB - dateA]. *)
Definition compareFn (a b : PostSummary) : option Z :=
  match getTime (publishedAt a), getTime (publishedAt b) with
  | Some dateA, Some dateB => Some (dateB - dateA)%Z
  | _, _ => None
  end.

(** The entries the list view shows, from the query data and the local
    posts held in the component state. *)
Definition mergedPosts (data : option GetPostsQuery)
  (localPosts : list LocalStorage.LocalPost) : list PostSummary :=
  Array_sort compareFn
    (uniquePosts (allPosts (serverPosts data) (convertedLocalPosts localPosts))).

(** The component, as a function of its state and of the query state. *)
Definition PostList (showCreateForm : bool)
  (localPosts : list LocalStorage.LocalPost) (q : QueryState) : View :=
  if isLoading q then LoadingSpinner
  else
    let posts := mergedPosts (data q) localPosts in
    Page showCreateForm
      (if (length posts =? 0)%nat then NoPosts else PostLinks posts).

End Reconciler.

End PostList.

(** ** components/PostForm.tsx *)

Module PostForm.
Import JS Runtime.

Record KnownAuthor := { id : string; name : string }.

(** The fixed list of authors offered by the form. *)
Definition AUTHORS : list KnownAuthor :=
  [ {| id := "1"; name := "髙橋慶祐" |};
    {| id := "2"; name := "佐藤太郎" |};
    {| id := "3"; name := "鈴木花子" |};
    {| id := "4"; name := "伊藤次郎" |};
    {| id := "5"; name := "加藤三郎" |} ].

Record CreatePostInput := {
  authorId : string;
  body : string;
  tags : option (list string);   (* [None] is [undefined] or [null] *)
  title : string
}.

Record CreatePostMutationVariables := { input : CreatePostInput }.

(** The test both [onError] and the error banner apply to a message. *)
Definition mentions_connectivity (message : string) : bool :=
  String_includes message "Failed to fetch" ||
  String_includes message "fetch" ||
  String_includes message "Network".

(** [selectedAuthor?.name || '不明'] *)
Definition authorName_of (authorId : string) : string :=
  match List.find (fun a => String.eqb (id a) authorId) AUTHORS with
  | Some selectedAuthor =>
      if String.eqb (name selectedAuthor) "" then "不明" else name selectedAuthor
  | None => "不明"
  end.

(** The [LocalPost] built from the submitted variables; [now] and [random36]
    feed the identifier, [clock] is the time value of [new Date()]. *)
Definition fallbackPost (variables : CreatePostMutationVariables)
  (now : Z) (random36 : string) (clock : Z) : LocalStorage.LocalPost :=
  let tagsArray :=
    match tags (input variables) with
    | Some ts => ts
    | None => []
    end in
  let authorName := authorName_of (authorId (input variables)) in
  {| LocalStorage.id := LocalStorage.generateLocalPostId now random36;
     LocalStorage.title := title (input variables);
     LocalStorage.body := body (input variables);
     LocalStorage.tags := tagsArray;
     LocalStorage.publishedAt := JSDate.toISOString clock;
     LocalStorage.author :=
       {| LocalStorage.author_id := authorId (input variables);
          LocalStorage.author_name := authorName;
          LocalStorage.author_avatarUrl := None |} |}.

(** The [onError] callback of the create mutation. *)
Definition onError (error : Thrown) (variables : CreatePostMutationVariables)
  (now : Z) (random36 : string) (clock : Z) : M unit :=
  let report := console_error "投稿作成エラー:" in
  match error with
  | ErrorObject message =>
      if mentions_connectivity message then
        let localPost := fallbackPost variables now random36 clock in
        (console_warn "サーバーに接続できません。ローカルストレージに保存します。" ;;;
         LocalStorage.saveLocalPost localPost ;;;
         emit (InvalidateQueries "GetPosts") ;;;
         emit (SetShowSuccessMessage true) ;;;
         emit FormReset ;;;
         emit (SetTags []) ;;;
         emit (SetTagInput "") ;;;
         emit (SetTimeout
                 [CallOnSuccess;
                  RouterPush ("/posts/" +:+ LocalStorage.id localPost)]
                 2000))%js
      else report
  | NotAnError => report
  end.

(** What the component shows. *)
Inductive FormView :=
| SuccessPanel
| Form (errorBanner : option string).

(** The message of the red banner above the form, if it is shown. *)
Definition errorBanner (error : option Thrown) : option string :=
  match error with
  | Some (ErrorObject message) =>
      if negb (String_includes message "Failed to fetch") &&
         negb (String_includes message "fetch") &&
         negb (String_includes message "Network")
      then Some message
      else None
  | _ => None
  end.

Definition PostForm (showSuccessMessage : bool) (error : option Thrown) : FormView :=
  if showSuccessMessage then SuccessPanel else Form (errorBanner error).

(** The value of the [showSuccessMessage] state after the effects of a trace. *)
Definition showSuccessMessage_after (initial : bool) (tr : list Event) : bool :=
  fold_left
    (fun shown e =>
       match e with
       | SetShowSuccessMessage b => b
       | _ => shown
       end)
    tr initial.

End PostForm.

(** ** components/PostDetail.tsx *)

Module PostDetail.
Import JS Runtime.

(** How the remote deletion settles. *)
Inductive RemoteOutcome :=
| Resolved (deletePost : bool)
| Rejected (error : Thrown).

(** The [onSuccess] callback of the delete mutation. *)
Definition onSuccess (postId : string) : M unit :=
  ((if String_startsWith postId "local_"
    then LocalStorage.deleteLocalPost postId
    else ret tt) ;;;
   emit (InvalidateQueries "GetPosts") ;;;
   emit (RouterPush "/"))%js.

(** The [onError] callback of the delete mutation. *)
Definition onError (postId : string) (error : Thrown) : M unit :=
  if String_startsWith postId "local_"
  then (LocalStorage.deleteLocalPost postId ;;;
        emit (InvalidateQueries "GetPosts") ;;;
        emit (RouterPush "/"))%js
  else console_error "記事削除エラー:".

(** [deleteMutation.mutate({ id: postId })]: the request is sent, then the
    callback matching its outcome runs. *)
Definition deleteMutation_mutate (postId : string) (remote : RemoteOutcome)
  : M unit :=
  (emit (RemoteDeleteRequest postId) ;;;
   match remote with
   | Resolved _ => onSuccess postId
   | Rejected error => onError postId error
   end)%js.

(** The effect that loads the local copy of a local-only post. *)
Definition loadLocalPost (postId : string) : M (option JSValue) :=
  if String_startsWith postId "local_"
  then LocalStorage.getLocalPost postId
  else ret None.

End PostDetail.

(** ** Vocabulary of the statements *)

Module Vocabulary.
Import JS Runtime.

(** The first entry of a list carrying a given identifier. *)
Definition find_by_id (i : string) (l : list PostList.PostSummary)
  : option PostList.PostSummary :=
  List.find (fun p => String.eqb (PostList.id p) i) l.

(** The entries of a list that are the first to carry their identifier, in
    the order of the list. *)
Fixpoint first_occurrences (l : list PostList.PostSummary)
  : list PostList.PostSummary :=
  match l with
  | [] => []
  | x :: l' =>
      x :: filter (fun p => PostList.id p ≠ PostList.id x) (first_occurrences l')
  end.

(** The time value the comparator reads off an entry, and whether there is
    one. *)
Definition time_value (getTime : string -> option Z)
  (p : PostList.PostSummary) : Z :=
  default 0%Z (getTime (PostList.publishedAt p)).

Definition well_formed (getTime : string -> option Z)
  (p : PostList.PostSummary) : Prop :=
  is_Some (getTime (PostList.publishedAt p)).

(** [a] is at least as recent as [b], both timestamps being well formed. *)
Definition not_older (getTime : string -> option Z)
  (a b : PostList.PostSummary) : Prop :=
  ∃ ta tb, getTime (PostList.publishedAt a) = Some ta ∧
           getTime (PostList.publishedAt b) = Some tb ∧ (tb ≤ ta)%Z.

(** The storage can be read and written. *)
Definition operational (b : Browser) : Prop :=
  hasWindow b = true ∧ getItemRaises b = false ∧ setItemRaises b = false.

(** The storage is usable and get-all returns the collection [ps]. *)
Definition holds (b : Browser) (ps : list LocalStorage.LocalPost) : Prop :=
  operational b ∧
  (LocalStorage.getLocalPosts b).1.1 = Ok (JArr (map LocalStorage.toJSON ps)).

(** Events that only report on the console. *)
Definition console_only (e : Event) : Prop :=
  match e with
  | ConsoleError _ | ConsoleWarn _ => True
  | _ => False
  end.

(** Events of the persistence layer: console reports and storage writes. *)
Definition storage_event (e : Event) : Prop :=
  match e with
  | ConsoleError _ | ConsoleWarn _ | StorageSetItem _ => True
  | _ => False
  end.

(** What get-all makes of the stored item. *)
Definition read_value (stored : option StoredText) : JSValue :=
  match stored with
  | Some (Serialized v) => v
  | _ => JArr []
  end.

Definition read_events (stored : option StoredText) : list Event :=
  match stored with
  | Some Malformed => [ConsoleError "Failed to read from localStorage:"]
  | _ => []
  end.

(** The collection after save-one: the first entry carrying the identifier
    of [post] is overwritten, or [post] is appended. *)
Definition saved (post : LocalStorage.LocalPost)
  (ps : list LocalStorage.LocalPost) : list LocalStorage.LocalPost :=
  match list_find (fun p => LocalStorage.id p = LocalStorage.id post) ps with
  | Some (k, _) => <[k := post]> ps
  | None => ps ++ [post]
  end.

(** The effects of the create form's [onError] once the post is saved. *)
Definition success_effects (localPost : LocalStorage.LocalPost) : list Event :=
  [InvalidateQueries "GetPosts"; SetShowSuccessMessage true; FormReset;
   SetTags []; SetTagInput "";
   SetTimeout
     [CallOnSuccess; RouterPush ("/posts/" +:+ LocalStorage.id localPost)]
     2000].

(** The browser with the stored collection replaced. *)
Definition with_items (b : Browser) (m : gmap string StoredText) : Browser :=
  {| hasWindow := hasWindow b;
     getItemRaises := getItemRaises b;
     setItemRaises := setItemRaises b;
     items := m |}.

End Vocabulary.

(** ** Sample data *)

Module Scenario.
Import JS Runtime.

(** A usable browser whose storage key holds [t], or nothing. *)
Definition browser_storing (t : option StoredText) : Browser :=
  {| hasWindow := true;
     getItemRaises := false;
     setItemRaises := false;
     items := match t with
              | Some x => {[ LocalStorage.STORAGE_KEY := x ]}
              | None => ∅
              end |}.

Definition collection (ps : list LocalStorage.LocalPost) : option StoredText :=
  Some (Serialized (JArr (map LocalStorage.toJSON ps))).

Definition author_1 : LocalStorage.Author :=
  {| LocalStorage.author_id := "1";
     LocalStorage.author_name := "髙橋慶祐";
     LocalStorage.author_avatarUrl := None |}.

Definition local_post (i t at_ : string) : LocalStorage.LocalPost :=
  {| LocalStorage.id := i;
     LocalStorage.title := t;
     LocalStorage.body := "text";
     LocalStorage.tags := [];
     LocalStorage.publishedAt := at_;
     LocalStorage.author := author_1 |}.

(** The remote and local collections of the merge scenario. *)
Definition remote_1 : PostList.PostSummary :=
  {| PostList.id := "1";
     PostList.title := "A";
     PostList.publishedAt := "2024-01-01T00:00:00Z";
     PostList.author := {| PostList.name := "髙橋慶祐" |} |}.

Definition local_1 : LocalStorage.LocalPost :=
  local_post "1" "A, edited offline" "2024-03-01T00:00:00Z".

Definition local_999 : LocalStorage.LocalPost :=
  local_post "local_999" "B" "2024-06-01T00:00:00Z".

Definition local_12345_abc : LocalStorage.LocalPost :=
  local_post "local_12345_abc" "C" "2024-02-01T00:00:00Z".

Definition settled (entries : list PostList.PostSummary) : PostList.QueryState :=
  {| PostList.data := Some {| PostList.posts := entries |};
     PostList.isLoading := false;
     PostList.error := None |}.

Definition failed (e : Thrown) : PostList.QueryState :=
  {| PostList.data := None;
     PostList.isLoading := false;
     PostList.error := Some e |}.

Definition submitted : PostForm.CreatePostMutationVariables :=
  {| PostForm.input :=
       {| PostForm.authorId := "3";
          PostForm.body := "text";
          PostForm.tags := Some ["rocq"];
          PostForm.title := "Offline draft" |} |}.

Definition submitted_by (a : string) : PostForm.CreatePostMutationVariables :=
  {| PostForm.input :=
       {| PostForm.authorId := a;
          PostForm.body := "text";
          PostForm.tags := None;
          PostForm.title := "Offline draft" |} |}.

End Scenario.

(** ** lib/graphql-client.ts *)

Module GraphqlClient.

(** [getGraphQLEndpoint()]; [hasWindow] is [typeof window !== 'undefined'] and
    [NEXT_PUBLIC_GRAPHQL_ENDPOINT] the environment variable, [None] when it
    is not set. *)
Definition getGraphQLEndpoint (hasWindow : bool)
  (NEXT_PUBLIC_GRAPHQL_ENDPOINT : option string) : string :=
  let fallback := "http://127.0.0.1:8000/api/graphql" in
  if hasWindow then
    match NEXT_PUBLIC_GRAPHQL_ENDPOINT with
    | Some endpoint => if String.eqb endpoint "" then fallback else endpoint
    | None => fallback
    end
  else fallback.

End GraphqlClient.

(** ** components/PostForm.tsx: tags, submission and the success callback *)

Module PostFormState.
Import JS Runtime.

(** The part of the component state the tag editor works on: the [tags] and
    [tagInput] states and the value of the hidden form field [tags]. *)
Record TagState := {
  tags : list string;
  tagInput : string;
  tagsField : string
}.

(** [l.includes(x)] on an array of strings. *)
Definition Array_includes (l : list string) (x : string) : bool :=
  existsb (String.eqb x) l.

(** [l.join(sep)] *)
Definition Array_join (l : list string) (sep : string) : string :=
  String.concat sep l.

(** The values [handleSubmit] passes to [onSubmit]. *)
Record PostFormData := {
  data_title : string;
  data_body : string;
  data_tags : option string;
  data_authorId : string
}.

Section TagEditor.

(** [s.trim()] *)
Variable trim : string -> string.

Definition addTag (tag : string) (st : TagState) : TagState :=
  let trimmedTag := trim tag in
  if negb (String.eqb trimmedTag "") && negb (Array_includes (tags st) trimmedTag)
  then
    let newTags := tags st ++ [trimmedTag] in
    {| tags := newTags; tagInput := ""; tagsField := Array_join newTags "," |}
  else st.

Definition removeTag (tagToRemove : string) (st : TagState) : TagState :=
  let newTags :=
    List.filter (fun tag => negb (String.eqb tag tagToRemove)) (tags st) in
  {| tags := newTags;
     tagInput := tagInput st;
     tagsField := Array_join newTags "," |}.

(** [handleTagInputKeyDown]; the boolean tells whether [preventDefault] was
    called. *)
Definition handleTagInputKeyDown (key : string) (st : TagState)
  : bool * TagState :=
  if String.eqb key "Enter" || String.eqb key ","
  then (true,
        if negb (String.eqb (trim (tagInput st)) "")
        then addTag (tagInput st) st
        else st)
  else (false, st).

(** [onSubmit]: the variables handed to [createMutation.mutate] and the state
    after the pending tag, if any, was added.  The array sent is the [tags]
    of the render in which the form was submitted. *)
Definition onSubmit (data : PostFormData) (st : TagState)
  : PostForm.CreatePostMutationVariables * TagState :=
  let st' :=
    if negb (String.eqb (trim (tagInput st)) "")
    then addTag (tagInput st) st
    else st in
  let tagsArray := if (0 <? length (tags st))%nat then tags st else [] in
  ({| PostForm.input :=
        {| PostForm.authorId := data_authorId data;
           PostForm.body := data_body data;
           PostForm.tags :=
             if (0 <? length tagsArray)%nat then Some tagsArray else None;
           PostForm.title := data_title data |} |},
   st').

End TagEditor.

(** The post returned by the create mutation. *)
Record CreatedAuthor := {
  created_author_id : string;
  created_author_name : string;
  created_author_avatarUrl : option string   (* [None] is [null] or absent *)
}.

Record CreatedPost := {
  created_id : string;
  created_title : string;
  created_body : string;
  created_tags : option (list string);       (* [None] is [null] or absent *)
  created_publishedAt : string;
  created_author : CreatedAuthor
}.

(** The backup copy written to local storage. *)
Definition mirror (createPost : CreatedPost) : LocalStorage.LocalPost :=
  {| LocalStorage.id := created_id createPost;
     LocalStorage.title := created_title createPost;
     LocalStorage.body := created_body createPost;
     LocalStorage.tags :=
       match created_tags createPost with
       | Some ts => ts
       | None => []
       end;
     LocalStorage.publishedAt := created_publishedAt createPost;
     LocalStorage.author :=
       {| LocalStorage.author_id := created_author_id (created_author createPost);
          LocalStorage.author_name :=
            created_author_name (created_author createPost);
          LocalStorage.author_avatarUrl :=
            match created_author_avatarUrl (created_author createPost) with
            | Some u => if String.eqb u "" then None else Some u
            | None => None
            end |} |}.

(** Effects of the success callback: those of the handlers above, and the
    refetch of a query. *)
Inductive Effect :=
| Base (e : Event)
| RefetchQueries (queryKey : string).

(** How the [try] block refreshing the listing goes. *)
Inductive RefreshOutcome :=
| Refreshed
| InvalidateRejected
| RefetchRejected.

(** The [onSuccess] callback of the create mutation; [data] is
    [data?.createPost], [None] when it is absent. *)
Definition onSuccess (data : option CreatedPost) (refresh : RefreshOutcome)
  (b : Browser) : result unit * Browser * list Effect :=
  match
    match data with
    | Some createPost => LocalStorage.saveLocalPost (mirror createPost) b
    | None => (Ok tt, b, [])
    end
  with
  | (Throw e, b', evs) => (Throw e, b', map Base evs)
  | (Ok _, b', evs) =>
      let destination :=
        match data with
        | Some createPost =>
            if String.eqb (created_id createPost) "" then []
            else [RouterPush ("/posts/" +:+ created_id createPost)]
        | None => []
        end in
      (Ok tt, b',
       map Base evs ++
       [Base (InvalidateQueries "GetPosts")] ++
       match refresh with
       | InvalidateRejected => []
       | Refreshed | RefetchRejected => [RefetchQueries "GetPosts"]
       end ++
       map Base
         [SetShowSuccessMessage true; FormReset; SetTags []; SetTagInput "";
          SetTimeout (CallOnSuccess :: destination) 2000])
  end.

End PostFormState.

(** ** components/PostDetail.tsx: what the detail view shows *)

Module PostDetailView.
Import JS.

Record RemoteAuthor := {
  name : string;
  avatarUrl : option string
}.

(** The post of [GetPostQuery]. *)
Record RemotePost := {
  id : string;
  title : string;
  body : string;
  tags : list string;
  publishedAt : string;
  author : RemoteAuthor
}.

Record GetPostQuery := { post : option RemotePost }.

Record QueryState := {
  data : option GetPostQuery;
  isLoading : bool;
  error : option Thrown
}.

(** The post the view displays: the remote one, or the local one with the
    author id it carries. *)
Inductive Shown :=
| FromRemote (p : RemotePost)
| FromLocal (p : LocalStorage.LocalPost).

Inductive View :=
| LoadingSpinner
| NotFound
| Detail (p : Shown).

(** [data?.post || (localPost ? {...} : null)] *)
Definition selectPost (data : option GetPostQuery)
  (localPost : option LocalStorage.LocalPost) : option Shown :=
  match data with
  | Some {| post := Some p |} => Some (FromRemote p)
  | _ =>
      match localPost with
      | Some lp => Some (FromLocal lp)
      | None => None
      end
  end.

(** The component, as a function of the query state and of the [localPost]
    state. *)
Definition PostDetail (q : QueryState)
  (localPost : option LocalStorage.LocalPost) : View :=
  if isLoading q then LoadingSpinner
  else
    match selectPost (data q) localPost with
    | None => NotFound
    | Some p => Detail p
    end.

(** The title, the tags and the author name the view prints. *)
Definition shown_title (p : Shown) : string :=
  match p with
  | FromRemote r => title r
  | FromLocal l => LocalStorage.title l
  end.

Definition shown_tags (p : Shown) : list string :=
  match p with
  | FromRemote r => tags r
  | FromLocal l => LocalStorage.tags l
  end.

Definition shown_author_name (p : Shown) : string :=
  match p with
  | FromRemote r => name (author r)
  | FromLocal l => LocalStorage.author_name (LocalStorage.author l)
  end.

End PostDetailView.

(** ** Further vocabulary *)

Module Terms.
Import JS Runtime.

(** The [localPost] state once the loading effect ran on a storage holding
    [ps]: only identifiers with the [local_] prefix are looked up. *)
Definition localPost_state (postId : string)
  (ps : list LocalStorage.LocalPost) : option LocalStorage.LocalPost :=
  if String_startsWith postId "local_"
  then snd <$> list_find (fun p => LocalStorage.id p = postId) ps
  else None.

(** A character other than the underscore. *)
Definition not_underscore (c : ascii) : Prop := c ≠ "_"%char.

(** A storage operation, and the browser it leaves. *)
Inductive StorageOp :=
| Save (post : LocalStorage.LocalPost)
| Delete (target : string).

Definition perform (b : Browser) (op : StorageOp) : Browser :=
  match op with
  | Save post => (LocalStorage.saveLocalPost post b).1.2
  | Delete target => (LocalStorage.deleteLocalPost target b).1.2
  end.

(** All characters of a string satisfy a predicate. *)
Fixpoint all_chars (P : ascii -> Prop) (s : string) : Prop :=
  match s with
  | EmptyString => True
  | String c s' => P c ∧ all_chars P s'
  end.

(** Removal of leading and trailing spaces, an instance of [trim] on texts
    whose only white space is the space character. *)
Fixpoint drop_spaces (s : string) : string :=
  match s with
  | String " " s' => drop_spaces s'
  | _ => s
  end.

Fixpoint rev_string (acc s : string) : string :=
  match s with
  | EmptyString => acc
  | String c s' => rev_string (String c acc) s'
  end.

Definition trim_spaces (s : string) : string :=
  rev_string "" (drop_spaces (rev_string "" (drop_spaces s))).

(** The tag editor is consistent: no empty tag, no tag twice, and the hidden
    field is the comma-joined list. *)
Definition tags_consistent (st : PostFormState.TagState) : Prop :=
  NoDup (PostFormState.tags st) ∧
  Forall (fun t => t ≠ ""%string) (PostFormState.tags st) ∧
  PostFormState.tagsField st
  = PostFormState.Array_join (PostFormState.tags st) ",".

End Terms.

(* ===================================================================== *)
(** * Part II. Theorems                                                    *)
(* ===================================================================== *)

(** ** Array methods *)

Module ArrayFacts.
Import JS.

Section Sorting.
Context {A : Type}.
Variable compareFn : A -> A -> option Z.
Variable key : A -> Z.
Variable good : A -> Prop.
Hypothesis compare_key :
  ∀ x y, good x → good y → SortCompare compareFn x y = (key y - key x)%Z.

Lemma sort_insert_perm (x : A) (l : list A) :
  sort_insert compareFn x l ≡ₚ x :: l.
Proof.
  induction l as [|y l IH]; simpl; [done|].
  destruct (SortCompare compareFn x y <=? 0)%Z; [done|].
  rewrite IH. apply Permutation_swap.
Qed.

Lemma Array_sort_perm (l : list A) : Array_sort compareFn l ≡ₚ l.
Proof.
  induction l as [|x l IH]; simpl; [done|].
  unfold Array_sort in *. simpl. rewrite sort_insert_perm. by rewrite IH.
Qed.

Lemma sort_insert_sorted (x : A) (l : list A) :
  good x → Forall good l →
  StronglySorted (fun a b => (key b ≤ key a)%Z) l →
  StronglySorted (fun a b => (key b ≤ key a)%Z) (sort_insert compareFn x l).
Proof.
  intros Hx Hl Hs. induction Hs as [|y l Hs IH Hy]; simpl.
  - repeat constructor.
  - apply Forall_cons in Hl as [Hgy Hl].
    rewrite (compare_key x y Hx Hgy).
    destruct (key y - key x <=? 0)%Z eqn:E.
    + apply Z.leb_le in E. constructor; [by constructor|].
      constructor; [lia|].
      eapply Forall_impl; [exact Hy|]. simpl. intros z Hz. lia.
    + apply Z.leb_gt in E. constructor; [by apply IH|].
      rewrite sort_insert_perm. constructor; [lia|done].
Qed.

Lemma Array_sort_sorted (l : list A) :
  Forall good l →
  StronglySorted (fun a b => (key b ≤ key a)%Z) (Array_sort compareFn l).
Proof.
  induction 1 as [|x l Hx Hl IH]; unfold Array_sort in *; simpl.
  - constructor.
  - apply sort_insert_sorted; [done| |done].
    fold (Array_sort compareFn l). by rewrite Array_sort_perm.
Qed.

Lemma sort_insert_stable (k : Z) (x : A) (l : list A) :
  good x → Forall good l →
  filter (fun a => key a = k) (sort_insert compareFn x l)
  = filter (fun a => key a = k) (x :: l).
Proof.
  intros Hx Hl. induction Hl as [|y l Hy Hl IH]; simpl; [done|].
  rewrite (compare_key x y Hx Hy).
  destruct (key y - key x <=? 0)%Z eqn:E; [done|].
  apply Z.leb_gt in E.
  rewrite !filter_cons, IH, !filter_cons.
  repeat case_decide; try done; lia.
Qed.

Lemma Array_sort_stable (k : Z) (l : list A) :
  Forall good l →
  filter (fun a => key a = k) (Array_sort compareFn l)
  = filter (fun a => key a = k) l.
Proof.
  induction 1 as [|x l Hx Hl IH]; [done|].
  unfold Array_sort in *; simpl.
  rewrite sort_insert_stable; [|done|].
  - rewrite !filter_cons. by rewrite IH.
  - fold (Array_sort compareFn l). by rewrite Array_sort_perm.
Qed.

End Sorting.

End ArrayFacts.

(** ** The reconciler of the list view *)

Module PostListFacts.
Import JS PostList Vocabulary.

Lemma find_by_id_cons (i : string) (x : PostSummary) (l : list PostSummary) :
  find_by_id i (x :: l) = if String.eqb (id x) i then Some x else find_by_id i l.
Proof. reflexivity. Qed.

Lemma find_by_id_None (i : string) (l : list PostSummary) :
  find_by_id i l = None ↔ i ∉ map id l.
Proof.
  unfold find_by_id. induction l as [|x l IH]; simpl.
  - split; [intros _; apply not_elem_of_nil|done].
  - destruct (String.eqb_spec (id x) i) as [->|Hne].
    + split; [done|]. intros H. exfalso. apply H. left.
    + rewrite IH, not_elem_of_cons. naive_solver.
Qed.

Lemma find_by_id_Some (i : string) (l : list PostSummary) (p : PostSummary) :
  find_by_id i l = Some p → p ∈ l ∧ id p = i.
Proof.
  unfold find_by_id. induction l as [|x l IH]; simpl; [done|].
  destruct (String.eqb_spec (id x) i) as [<-|Hne].
  - intros [= <-]. split; [left|done].
  - intros H. destruct (IH H) as [? ?]. split; [by right|done].
Qed.

Lemma find_by_id_app (i : string) (l1 l2 : list PostSummary) :
  find_by_id i (l1 ++ l2)
  = match find_by_id i l1 with
    | Some p => Some p
    | None => find_by_id i l2
    end.
Proof.
  unfold find_by_id. induction l1 as [|x l1 IH]; simpl; [done|].
  by destruct (String.eqb (id x) i).
Qed.

Lemma find_by_id_filter_ne (i j : string) (l : list PostSummary) :
  i ≠ j →
  find_by_id i (filter (fun p => id p ≠ j) l) = find_by_id i l.
Proof.
  intros Hne. unfold find_by_id. induction l as [|x l IH]; simpl; [done|].
  rewrite filter_cons. case_decide as Hx; simpl.
  - by rewrite IH.
  - destruct (String.eqb_spec (id x) i) as [E|_]; [|done].
    congruence.
Qed.

(** With unique identifiers, looking an identifier up finds the one entry
    that carries it. *)
Lemma find_by_id_unique (l : list PostSummary) (p : PostSummary) :
  NoDup (map id l) → p ∈ l → find_by_id (id p) l = Some p.
Proof.
  unfold find_by_id. induction l as [|x l IH]; simpl.
  - intros _ H. by apply elem_of_nil in H.
  - intros [Hx Hnd]%NoDup_cons [->|Hp]%elem_of_cons.
    + by rewrite String.eqb_refl.
    + destruct (String.eqb_spec (id x) (id p)) as [E|_]; [|by apply IH].
      exfalso. apply Hx. rewrite E. by apply list_elem_of_fmap_2.
Qed.

Lemma find_by_id_perm (i : string) (l l' : list PostSummary) :
  NoDup (map id l) → l ≡ₚ l' → find_by_id i l = find_by_id i l'.
Proof.
  intros Hnd Hp.
  assert (Hnd' : NoDup (map id l')) by (by rewrite <- Hp).
  destruct (find_by_id i l) as [p|] eqn:E.
  - apply find_by_id_Some in E as [Hin <-].
    symmetry. apply find_by_id_unique; [done|]. by rewrite <- Hp.
  - symmetry. apply find_by_id_None. apply find_by_id_None in E.
    by rewrite <- Hp.
Qed.

(** The accumulator of the [reduce] grows by the first occurrences of the
    identifiers it has not seen. *)
Lemma uniquePosts_fold (l acc : list PostSummary) :
  fold_left
    (fun acc post =>
       match List.find (fun p => String.eqb (id p) (id post)) acc with
       | None => acc ++ [post]
       | Some _ => acc
       end) l acc
  = acc ++ filter (fun p => id p ∉ map id acc) (first_occurrences l).
Proof.
  revert acc. induction l as [|x l IH]; intros acc; simpl.
  - by rewrite filter_nil, app_nil_r.
  - rewrite IH. rewrite filter_cons.
    destruct (List.find _ acc) as [q|] eqn:E.
    + fold (find_by_id (id x) acc) in E.
      assert (Hin : id x ∈ map id acc).
      { destruct (decide (id x ∈ map id acc)) as [|Hn]; [done|].
        apply find_by_id_None in Hn. congruence. }
      rewrite decide_False by (intros Hn; by apply Hn).
      f_equal. rewrite list_filter_filter. apply list_filter_iff.
      intros p. split; [|naive_solver].
      intros Hp. split; [done|]. intros Heq. apply Hp. by rewrite Heq.
    + fold (find_by_id (id x) acc) in E. apply find_by_id_None in E.
      rewrite decide_True by done.
      rewrite <- app_assoc. simpl. do 2 f_equal.
      rewrite list_filter_filter. apply list_filter_iff.
      intros p. rewrite map_app. simpl. rewrite elem_of_app, list_elem_of_singleton.
      naive_solver.
Qed.

Lemma uniquePosts_first_occurrences (l : list PostSummary) :
  uniquePosts l = first_occurrences l.
Proof.
  unfold uniquePosts. rewrite uniquePosts_fold. simpl.
  induction (first_occurrences l) as [|p r IH]; [done|].
  rewrite filter_cons_True by apply not_elem_of_nil. by rewrite IH.
Qed.

Lemma first_occurrences_ids (i : string) (l : list PostSummary) :
  i ∈ map id (first_occurrences l) ↔ i ∈ map id l.
Proof.
  induction l as [|x l IH]; simpl; [done|].
  rewrite !elem_of_cons, <- IH.
  destruct (decide (i = id x)) as [->|Hne]; [naive_solver|].
  split; (intros [?|H]; [by left|right]).
  - apply list_elem_of_fmap in H as (p & -> & Hp).
    apply list_elem_of_filter in Hp as [_ Hp]. by apply list_elem_of_fmap_2.
  - apply list_elem_of_fmap in H as (p & -> & Hp).
    apply list_elem_of_fmap_2, list_elem_of_filter. split; [congruence|done].
Qed.

Lemma NoDup_ids_filter (P : PostSummary → Prop) `{!∀ p, Decision (P p)}
  (l : list PostSummary) :
  NoDup (map id l) → NoDup (map id (filter P l)).
Proof.
  induction l as [|x l IH]; simpl; [done|].
  intros [Hx Hnd]%NoDup_cons. rewrite filter_cons. case_decide; [|by apply IH].
  simpl. apply NoDup_cons. split; [|by apply IH].
  intros (p & E & Hp%list_elem_of_filter)%list_elem_of_fmap.
  apply Hx. rewrite E. apply list_elem_of_fmap_2. tauto.
Qed.

Lemma first_occurrences_NoDup (l : list PostSummary) :
  NoDup (map id (first_occurrences l)).
Proof.
  induction l as [|x l IH]; simpl; [constructor|].
  apply NoDup_cons. split; [|by apply NoDup_ids_filter].
  intros (p & E & Hp%list_elem_of_filter)%list_elem_of_fmap.
  destruct Hp as [Hp _]. by apply Hp.
Qed.

Lemma first_occurrences_find (i : string) (l : list PostSummary) :
  find_by_id i (first_occurrences l) = find_by_id i l.
Proof.
  induction l as [|x l IH]; [done|].
  cbn [first_occurrences]. rewrite !find_by_id_cons.
  destruct (String.eqb_spec (id x) i) as [E|Hne]; [done|].
  rewrite find_by_id_filter_ne by congruence. exact IH.
Qed.

Lemma first_occurrences_sublist (l : list PostSummary) :
  first_occurrences l `sublist_of` l.
Proof.
  induction l as [|x l IH]; simpl; [constructor|].
  apply sublist_skip. etrans; [apply sublist_filter|exact IH].
Qed.

(** A list with unique identifiers holds each of them exactly once. *)
Lemma NoDup_ids_count (i : string) (l : list PostSummary) :
  NoDup (map id l) → i ∈ map id l →
  length (filter (fun p => id p = i) l) = 1.
Proof.
  induction l as [|x l IH]; simpl.
  - intros _ H. by apply elem_of_nil in H.
  - intros [Hx Hnd]%NoDup_cons Hin. rewrite filter_cons.
    case_decide as E; simpl.
    + f_equal. subst i.
      destruct (filter _ l) as [|q r] eqn:F; [done|].
      exfalso. apply Hx.
      assert (Hq : q ∈ filter (fun p => id p = id x) l) by (rewrite F; left).
      apply list_elem_of_filter in Hq as [<- Hq]. by apply list_elem_of_fmap_2.
    + apply IH; [done|]. apply elem_of_cons in Hin as [?|?]; [congruence|done].
Qed.

Lemma filter_iff_Forall {A} (P Q : A → Prop)
  `{!∀ x, Decision (P x)} `{!∀ x, Decision (Q x)} (l : list A) :
  Forall (fun x => P x ↔ Q x) l → filter P l = filter Q l.
Proof.
  induction 1 as [|x l Hx Hl IH]; [done|].
  rewrite !filter_cons, IH. repeat case_decide; tauto.
Qed.

Lemma sublist_filter_mono {A} (P : A → Prop) `{!∀ x, Decision (P x)}
  (k l : list A) :
  k `sublist_of` l → filter P k `sublist_of` filter P l.
Proof.
  induction 1 as [|x k l Hs IH|x k l Hs IH]; rewrite ?filter_cons.
  - constructor.
  - case_decide; [by apply sublist_skip|done].
  - case_decide; [by apply sublist_cons|done].
Qed.

Lemma StronglySorted_strengthen {A} (R R' : A → A → Prop) (good : A → Prop)
  (l : list A) :
  (∀ a b, good a → good b → R a b → R' a b) →
  Forall good l → StronglySorted R l → StronglySorted R' l.
Proof.
  intros HR Hg Hs. induction Hs as [|x l Hs IH Hx]; [constructor|].
  apply Forall_cons in Hg as [Hgx Hg]. constructor; [by apply IH|].
  rewrite Forall_forall in Hx, Hg. apply Forall_forall. intros y Hy.
  apply HR; auto.
Qed.

Section MergedView.

Variable getTime : string -> option Z.

Lemma compareFn_key (x y : PostSummary) :
  well_formed getTime x → well_formed getTime y →
  SortCompare (compareFn getTime) x y
  = (time_value getTime y - time_value getTime x)%Z.
Proof.
  unfold well_formed, time_value, SortCompare, compareFn.
  intros [tx ->] [ty ->]. done.
Qed.

Lemma mergedPosts_perm (data : option GetPostsQuery)
  (localPosts : list LocalStorage.LocalPost) :
  mergedPosts getTime data localPosts
  ≡ₚ first_occurrences (serverPosts data ++ convertedLocalPosts localPosts).
Proof.
  unfold mergedPosts, allPosts.
  rewrite ArrayFacts.Array_sort_perm. by rewrite uniquePosts_first_occurrences.
Qed.

(** C1. The merged list view holds each identifier of the remote and local
    collections exactly once and no other identifier; the entry shown for an
    identifier is its first occurrence in the concatenation of the remote
    collection followed by the local one, so an identifier carried by a remote
    entry is shown with that remote entry (its title, publication time and
    author name), whatever local entry shares it. *)
Theorem merged_view_unique_ids_remote_first (data : option GetPostsQuery)
  (localPosts : list LocalStorage.LocalPost) :
  let R := serverPosts data in
  let L := convertedLocalPosts localPosts in
  let out := mergedPosts getTime data localPosts in
  NoDup (map id out) ∧
  (∀ i, i ∈ map id (R ++ L) → length (filter (fun p => id p = i) out) = 1) ∧
  (∀ i, i ∈ map id out → i ∈ map id (R ++ L)) ∧
  (∀ i, find_by_id i out = find_by_id i (R ++ L)) ∧
  (∀ i r, find_by_id i R = Some r →
          r ∈ out ∧ ∀ q, q ∈ out → id q = i → q = r).
Proof.
  intros R L out.
  pose proof (mergedPosts_perm data localPosts) as Hperm.
  fold R L out in Hperm.
  assert (Hnd : NoDup (map id out)).
  { rewrite Hperm. apply first_occurrences_NoDup. }
  assert (Hids : ∀ i, i ∈ map id out ↔ i ∈ map id (R ++ L)).
  { intros i. rewrite Hperm. apply first_occurrences_ids. }
  assert (Hfind : ∀ i, find_by_id i out = find_by_id i (R ++ L)).
  { intros i. rewrite <- (first_occurrences_find i (R ++ L)).
    apply find_by_id_perm; [exact Hnd|exact Hperm]. }
  split; [done|]. split.
  { intros i Hi. apply NoDup_ids_count; [done|]. by apply Hids. }
  split; [intros i; apply Hids|]. split; [done|].
  intros i r Hr.
  assert (Hout : find_by_id i out = Some r).
  { rewrite Hfind, find_by_id_app. by rewrite Hr. }
  split; [by apply find_by_id_Some in Hout as [? _]|].
  intros q Hq <-.
  rewrite (find_by_id_unique out q Hnd Hq) in Hout. congruence.
Qed.

(** C2. When every publication timestamp of the remote and local collections
    is well formed, the merged list view is sorted by publication time, most
    recent first, and entries with identical timestamps keep the relative
    order they had in the concatenation of the remote collection followed by
    the local one. *)
Theorem merged_view_sorted_descending_stable (data : option GetPostsQuery)
  (localPosts : list LocalStorage.LocalPost) :
  let R := serverPosts data in
  let L := convertedLocalPosts localPosts in
  let out := mergedPosts getTime data localPosts in
  (∀ p, p ∈ R ++ L → is_Some (getTime (publishedAt p))) →
  StronglySorted (not_older getTime) out ∧
  (∀ t, filter (fun p => getTime (publishedAt p) = Some t) out
        = filter (fun p => getTime (publishedAt p) = Some t) (uniquePosts (R ++ L))) ∧
  uniquePosts (R ++ L) `sublist_of` R ++ L ∧
  (∀ a b, [a; b] `sublist_of` out →
          getTime (publishedAt a) = getTime (publishedAt b) →
          [a; b] `sublist_of` R ++ L).
Proof.
  intros R L out Hwf.
  assert (Hsub : uniquePosts (R ++ L) `sublist_of` R ++ L).
  { rewrite uniquePosts_first_occurrences. apply first_occurrences_sublist. }
  assert (Hgu : Forall (well_formed getTime) (uniquePosts (R ++ L))).
  { apply Forall_forall. intros p Hp. apply Hwf.
    eapply sublist_submseteq, elem_of_submseteq in Hsub; eauto. }
  assert (Hgo : Forall (well_formed getTime) out).
  { unfold out, mergedPosts, allPosts. fold R L.
    by rewrite ArrayFacts.Array_sort_perm. }
  assert (Hkey : ∀ t (l : list PostSummary), Forall (well_formed getTime) l →
            filter (fun p => getTime (publishedAt p) = Some t) l
            = filter (fun p => (time_value getTime) p = t) l).
  { intros t l Hl. apply filter_iff_Forall.
    eapply Forall_impl; [exact Hl|]. simpl. unfold well_formed, time_value.
    intros p [tp ->]. simpl. naive_solver. }
  assert (Hstable : ∀ t,
            filter (fun p => getTime (publishedAt p) = Some t) out
            = filter (fun p => getTime (publishedAt p) = Some t) (uniquePosts (R ++ L))).
  { intros t. rewrite !Hkey by done.
    unfold out, mergedPosts, allPosts. fold R L.
    by apply (ArrayFacts.Array_sort_stable _ (time_value getTime) (well_formed getTime) compareFn_key). }
  split.
  { apply (StronglySorted_strengthen (fun a b => ((time_value getTime) b ≤ (time_value getTime) a)%Z) _ (well_formed getTime));
      [|done|].
    - unfold well_formed, time_value, not_older.
      intros a b [ta Ha] [tb Hb] Hle.
      rewrite Ha, Hb in Hle. simpl in Hle. eauto.
    - unfold out, mergedPosts, allPosts. fold R L.
      by apply (ArrayFacts.Array_sort_sorted _ (time_value getTime) (well_formed getTime) compareFn_key). }
  split; [done|]. split; [done|].
  intros a b Hab Heq.
  assert (Ha : a ∈ out).
  { eapply elem_of_submseteq; [|by apply sublist_submseteq]. left. }
  rewrite Forall_forall in Hgo. destruct (Hgo a Ha) as [t Ht].
  apply (sublist_filter_mono (fun p => getTime (publishedAt p) = Some t)) in Hab.
  rewrite !filter_cons, filter_nil in Hab.
  rewrite decide_True in Hab by done.
  rewrite decide_True in Hab by congruence.
  rewrite Hstable in Hab.
  etrans; [exact Hab|]. etrans; [apply sublist_filter|done].
Qed.

(** C8. Once the query is no longer loading, a fetch error or an absent
    result is rendered exactly as an empty remote collection and the error is
    never consulted; with no remote entry and no local entry the view is the
    "no posts" state, which is not the loading state, and the view has no
    error state at all. *)
Theorem list_view_swallows_errors_and_shows_empty_state
  (showCreateForm : bool) (localPosts : list LocalStorage.LocalPost)
  (q : QueryState) :
  isLoading q = false →
  (data q = None →
   PostList getTime showCreateForm localPosts q
   = PostList getTime showCreateForm localPosts
       {| data := Some {| posts := [] |}; isLoading := false; error := None |}) ∧
  (∀ e, PostList getTime showCreateForm localPosts
          {| data := data q; isLoading := isLoading q; error := e |}
        = PostList getTime showCreateForm localPosts q) ∧
  (serverPosts (data q) = [] → localPosts = [] →
   PostList getTime showCreateForm localPosts q = Page showCreateForm NoPosts) ∧
  Page showCreateForm NoPosts ≠ LoadingSpinner ∧
  (∃ listing, PostList getTime showCreateForm localPosts q
              = Page showCreateForm listing).
Proof.
  intros Hload. unfold PostList. rewrite Hload. simpl.
  split; [intros Hd; unfold mergedPosts; by rewrite Hd|].
  split; [done|].
  split; [intros Hs ->; unfold mergedPosts; by rewrite Hs|].
  split; [done|]. eauto.
Qed.

End MergedView.

End PostListFacts.

(** ** The persistence operations *)

Module LocalStorageFacts.
Import JS Runtime LocalStorage Vocabulary.

Lemma id_equals_toJSON (t : string) (p : LocalPost) :
  id_equals t (toJSON p) = Ok (String.eqb (id p) t).
Proof. reflexivity. Qed.

Lemma id_differs_toJSON (t : string) (p : LocalPost) :
  id_differs t (toJSON p) = Ok (negb (String.eqb (id p) t)).
Proof. reflexivity. Qed.

(** On a well-formed collection [findIndex] is the typed search. *)
Lemma findIndex_toJSON (t : string) (ps : list LocalPost) (i0 : Z) :
  findIndex_from (id_equals t) (map toJSON ps) i0
  = Ok (match list_find (fun p => id p = t) ps with
        | Some (k, _) => i0 + Z.of_nat k
        | None => -1
        end)%Z.
Proof.
  revert i0. induction ps as [|p ps IH]; intros i0; [done|].
  cbn [map findIndex_from]. rewrite id_equals_toJSON.
  cbn [list_find]. destruct (String.eqb_spec (id p) t) as [E|Hne].
  - rewrite decide_True by done. simpl. f_equal. lia.
  - rewrite decide_False by done. rewrite IH.
    destruct (list_find _ ps) as [[k q]|]; simpl; [|done]. f_equal. lia.
Qed.

Lemma Array_filter_toJSON (t : string) (ps : list LocalPost) :
  Array_filter (id_differs t) (map toJSON ps)
  = Ok (map toJSON (filter (fun p => id p ≠ t) ps)).
Proof.
  induction ps as [|p ps IH]; [done|].
  cbn [map Array_filter]. rewrite id_differs_toJSON, IH, filter_cons.
  destruct (String.eqb_spec (id p) t) as [E|Hne]; simpl.
  - by rewrite decide_False by (intros H; by apply H).
  - by rewrite decide_True by done.
Qed.

Lemma Array_find_toJSON (t : string) (ps : list LocalPost) :
  Array_find (id_equals t) (map toJSON ps)
  = Ok (toJSON <$> (snd <$> list_find (fun p => id p = t) ps)).
Proof.
  induction ps as [|p ps IH]; [done|].
  cbn [map Array_find]. rewrite id_equals_toJSON.
  cbn [list_find]. destruct (String.eqb_spec (id p) t) as [E|Hne].
  - by rewrite decide_True by done.
  - rewrite decide_False by done. rewrite IH.
    by destruct (list_find _ ps) as [[k q]|].
Qed.

Lemma getLocalPosts_operational (b : Browser) :
  operational b →
  getLocalPosts b
  = (Ok (read_value (items b !! STORAGE_KEY)), b,
     read_events (items b !! STORAGE_KEY)).
Proof.
  destruct b as [hw gr sr its]. intros (Hw & Hg & Hs). simpl in *. subst.
  unfold getLocalPosts, bind, try_catch, get_browser, localStorage_getItem.
  simpl. unfold bind, get_browser. simpl.
  destruct (its !! STORAGE_KEY) as [[| |v]|]; reflexivity.
Qed.

(** get-all never raises and never changes the storage; all it may do is
    report on the console. *)
Lemma getLocalPosts_total (b : Browser) :
  ∃ v evs, getLocalPosts b = (Ok v, b, evs) ∧ Forall console_only evs.
Proof.
  destruct b as [hw gr sr its].
  unfold getLocalPosts, bind, try_catch, get_browser, localStorage_getItem.
  simpl. unfold bind, get_browser. simpl.
  destruct hw; simpl; [|by eauto].
  destruct gr; simpl.
  { do 2 eexists. split; [reflexivity|]. repeat constructor. }
  destruct (its !! STORAGE_KEY) as [[| |v]|]; simpl;
    do 2 eexists; (split; [reflexivity|]); repeat constructor.
Qed.

Lemma holds_read_value (b : Browser) (ps : list LocalPost) :
  holds b ps ↔
  operational b ∧ read_value (items b !! STORAGE_KEY) = JArr (map toJSON ps).
Proof.
  unfold holds. split; intros [Hop H]; (split; [done|]).
  - rewrite getLocalPosts_operational in H by done. simpl in H. congruence.
  - rewrite getLocalPosts_operational by done. simpl. congruence.
Qed.

Lemma holds_with_items (b : Browser) (ps : list LocalPost) :
  operational b →
  holds (with_items b (<[STORAGE_KEY := Serialized (JArr (map toJSON ps))]> (items b))) ps.
Proof.
  intros Hop. apply holds_read_value. split; [exact Hop|].
  simpl. by rewrite lookup_insert_eq.
Qed.

(** save-one on a usable storage holding a collection. *)
Lemma saveLocalPost_operational (post : LocalPost) (b : Browser)
  (ps : list LocalPost) :
  holds b ps →
  saveLocalPost post b
  = (Ok tt,
     with_items b (<[STORAGE_KEY := Serialized (JArr (map toJSON (saved post ps)))]> (items b)),
     read_events (items b !! STORAGE_KEY) ++ [StorageSetItem STORAGE_KEY]).
Proof.
  intros [Hop Hread]%holds_read_value.
  unfold saveLocalPost, bind at 1, get_browser.
  destruct Hop as (Hw & Hg & Hs). rewrite Hw. simpl.
  unfold try_catch, bind at 1.
  rewrite getLocalPosts_operational by done. rewrite Hread.
  unfold bind, lift, as_array, Array_findIndex. rewrite findIndex_toJSON.
  unfold localStorage_setItem, bind, get_browser, JSON_stringify. rewrite Hs.
  unfold saved, with_items, put_items, emit.
  destruct (list_find _ ps) as [[k q]|]; simpl.
  - assert ((0 + Z.of_nat k >=? 0)%Z = true) as -> by (apply Z.geb_le; lia).
    rewrite Z.add_0_l, Nat2Z.id.
    change (map toJSON) with (fmap (M:=list) toJSON).
    by rewrite list_fmap_insert.
  - by rewrite map_app.
Qed.

(** delete-one on a usable storage holding a collection. *)
Lemma deleteLocalPost_operational (target : string) (b : Browser)
  (ps : list LocalPost) :
  holds b ps →
  deleteLocalPost target b
  = (Ok tt,
     with_items b
       (<[STORAGE_KEY := Serialized
                           (JArr (map toJSON (filter (fun p => id p ≠ target) ps)))]>
          (items b)),
     read_events (items b !! STORAGE_KEY) ++ [StorageSetItem STORAGE_KEY]).
Proof.
  intros [Hop Hread]%holds_read_value.
  unfold deleteLocalPost, bind at 1, get_browser.
  destruct Hop as (Hw & Hg & Hs). rewrite Hw. simpl.
  unfold try_catch, bind at 1.
  rewrite getLocalPosts_operational by done. rewrite Hread.
  unfold bind, lift, as_array. rewrite Array_filter_toJSON.
  unfold localStorage_setItem, bind, get_browser, JSON_stringify. rewrite Hs.
  unfold with_items, put_items, emit. simpl. done.
Qed.

Lemma console_only_storage_event (evs : list Event) :
  Forall console_only evs → Forall storage_event evs.
Proof. intros H. eapply Forall_impl; [exact H|]. by intros []. Qed.

(** Closes a goal "the operation returns normally with storage events". *)
Ltac close_total :=
  do 2 eexists; (split; [reflexivity|]);
  repeat first
    [ apply Forall_nil_2
    | apply Forall_cons_2; [exact I|]
    | apply Forall_app_2
    | apply console_only_storage_event; assumption
    | assumption ].

(** save-one never raises; all it may do is write the storage and report on
    the console. *)
Lemma saveLocalPost_total (post : LocalPost) (b : Browser) :
  ∃ b' evs, saveLocalPost post b = (Ok tt, b', evs) ∧ Forall storage_event evs.
Proof.
  destruct (getLocalPosts_total b) as (v & evs & Hget & Hev).
  unfold saveLocalPost, bind at 1, get_browser.
  destruct (hasWindow b); simpl; [|close_total].
  unfold try_catch, bind at 1. rewrite Hget.
  unfold bind, lift, localStorage_setItem, get_browser, put_items, emit,
    console_error. unfold bind, emit.
  destruct (as_array v) as [arr|e]; simpl; [|close_total].
  destruct (Array_findIndex _ arr) as [index|e]; simpl; [|close_total].
  destruct (setItemRaises b); simpl; close_total.
Qed.

(** delete-one never raises either. *)
Lemma deleteLocalPost_total (target : string) (b : Browser) :
  ∃ b' evs, deleteLocalPost target b = (Ok tt, b', evs) ∧ Forall storage_event evs.
Proof.
  destruct (getLocalPosts_total b) as (v & evs & Hget & Hev).
  unfold deleteLocalPost, bind at 1, get_browser.
  destruct (hasWindow b); simpl; [|close_total].
  unfold try_catch, bind at 1. rewrite Hget.
  unfold bind, lift, localStorage_setItem, get_browser, put_items, emit,
    console_error. unfold bind, emit.
  destruct (as_array v) as [arr|e]; simpl; [|close_total].
  destruct (Array_filter _ arr) as [filtered|e]; simpl; [|close_total].
  destruct (setItemRaises b); simpl; close_total.
Qed.

(** get-one on a usable storage holding a collection. *)
Lemma getLocalPost_operational (target : string) (b : Browser)
  (ps : list LocalPost) :
  holds b ps →
  getLocalPost target b
  = (Ok (toJSON <$> (snd <$> list_find (fun p => id p = target) ps)), b,
     read_events (items b !! STORAGE_KEY)).
Proof.
  intros [Hop Hread]%holds_read_value.
  unfold getLocalPost, bind at 1.
  rewrite getLocalPosts_operational by done. rewrite Hread.
  unfold bind, lift, as_array, ret. rewrite Array_find_toJSON.
  destruct (list_find _ ps) as [[k q]|]; simpl; by rewrite app_nil_r.
Qed.

Lemma saved_length_present (post : LocalPost) (ps : list LocalPost) :
  id post ∈ map id ps → length (saved post ps) = length ps.
Proof.
  intros Hin. unfold saved.
  destruct (list_find _ ps) as [[k q]|] eqn:E; [by rewrite length_insert|].
  apply list_find_None in E. apply list_elem_of_fmap in Hin as (p & Hp & Hin).
  rewrite Forall_forall in E. by destruct (E p Hin).
Qed.

Lemma elem_of_saved (post : LocalPost) (ps : list LocalPost) :
  post ∈ saved post ps.
Proof.
  unfold saved. destruct (list_find _ ps) as [[k q]|] eqn:E.
  - apply list_find_Some in E as (Hk & _ & _).
    apply list_elem_of_lookup. exists k.
    apply list_lookup_insert_eq. by eapply lookup_lt_Some.
  - apply elem_of_app. right. left.
Qed.

(** C6. On a usable storage holding a collection, save-one of a post whose
    identifier already occurs overwrites the first entry carrying it, at the
    same position, and the collection keeps its size and its other entries;
    save-one of a post whose identifier does not occur appends it, so the
    size grows by exactly one and every former entry is unchanged. *)
Theorem saveLocalPost_replaces_in_place_or_appends (post : LocalPost)
  (b : Browser) (ps : list LocalPost) :
  holds b ps →
  ∃ b' evs ps',
    saveLocalPost post b = (Ok tt, b', evs) ∧ holds b' ps' ∧
    (id post ∈ map id ps →
     length ps' = length ps ∧
     ∃ k old, ps !! k = Some old ∧ id old = id post ∧
              (∀ j p, j < k → ps !! j = Some p → id p ≠ id post) ∧
              ps' !! k = Some post ∧
              (∀ j, j ≠ k → ps' !! j = ps !! j)) ∧
    (id post ∉ map id ps →
     length ps' = S (length ps) ∧ ps' = ps ++ [post]).
Proof.
  intros Hb. pose proof Hb as [Hop _].
  eexists _, _, (saved post ps). split; [by apply saveLocalPost_operational|].
  split; [by apply holds_with_items|]. split.
  - intros Hin. split; [by apply saved_length_present|].
    unfold saved. destruct (list_find _ ps) as [[k q]|] eqn:E.
    + apply list_find_Some in E as (Hk & Hq & Hfirst).
      exists k, q. split; [done|]. split; [done|]. split.
      { intros j p Hj Hp. by apply (Hfirst j p). }
      split; [apply list_lookup_insert_eq; by eapply lookup_lt_Some|].
      intros j Hj. by apply list_lookup_insert_ne.
    + apply list_find_None in E. apply list_elem_of_fmap in Hin as (p & Hp & Hin).
      rewrite Forall_forall in E. by destruct (E p Hin).
  - intros Hnin. unfold saved.
    destruct (list_find _ ps) as [[k q]|] eqn:E.
    + apply list_find_Some in E as (Hk & Hq & _). exfalso. apply Hnin.
      rewrite <- Hq. apply list_elem_of_fmap_2. by eapply list_elem_of_lookup_2.
    + split; [|done]. rewrite length_app. simpl. lia.
Qed.

Lemma saveLocalPost_replaces_in_place_or_appends_witness :
  holds (Scenario.browser_storing
           (Scenario.collection [Scenario.local_1; Scenario.local_999]))
        [Scenario.local_1; Scenario.local_999] ∧
  ∃ b' evs ps',
    saveLocalPost (Scenario.local_post "local_999" "B, second draft" "2024-06-02T00:00:00Z")
      (Scenario.browser_storing
         (Scenario.collection [Scenario.local_1; Scenario.local_999]))
    = (Ok tt, b', evs) ∧
    holds b' ps' ∧ length ps' = 2.
Proof.
  assert (H : holds (Scenario.browser_storing
                       (Scenario.collection [Scenario.local_1; Scenario.local_999]))
                    [Scenario.local_1; Scenario.local_999]).
  { split; [by repeat split|]. vm_compute. reflexivity. }
  split; [exact H|].
  destruct (saveLocalPost_replaces_in_place_or_appends
              (Scenario.local_post "local_999" "B, second draft" "2024-06-02T00:00:00Z")
              _ _ H) as (b' & evs & ps' & Hrun & Hb' & Hpresent & _).
  exists b', evs, ps'. split; [exact Hrun|]. split; [exact Hb'|].
  destruct Hpresent as [Hlen _]; [|exact Hlen].
  right. left.
Defined.

(** C7. The persistence operations are meant never to raise, and get-all,
    save-one and delete-one never do; get-one, however, calls [find] on
    whatever get-all returned outside any [try], so it raises a [TypeError]
    when the stored text is valid JSON that is not an array of objects (the
    text [null], or an array holding [null]), and the effect of the detail
    view that calls it raises with it. *)
Theorem getLocalPost_raises_on_stored_non_array :
  getLocalPosts (Scenario.browser_storing (Some (Serialized JNull)))
  = (Ok JNull, Scenario.browser_storing (Some (Serialized JNull)), []) ∧
  getLocalPost "local_12345_abc" (Scenario.browser_storing (Some (Serialized JNull)))
  = (Throw TypeError, Scenario.browser_storing (Some (Serialized JNull)), []) ∧
  getLocalPost "local_12345_abc"
    (Scenario.browser_storing (Some (Serialized (JArr [JNull]))))
  = (Throw TypeError,
     Scenario.browser_storing (Some (Serialized (JArr [JNull]))), []) ∧
  PostDetail.loadLocalPost "local_12345_abc"
    (Scenario.browser_storing (Some (Serialized JNull)))
  = (Throw TypeError, Scenario.browser_storing (Some (Serialized JNull)), []).
Proof. repeat split; vm_compute; reflexivity. Qed.

(** On absent, empty or unparseable stored text get-one answers "absent". *)
Lemma getLocalPost_absent_or_unparseable (target : string) :
  (getLocalPost target (Scenario.browser_storing None)).1.1 = Ok None ∧
  (getLocalPost target (Scenario.browser_storing (Some Blank))).1.1 = Ok None ∧
  (getLocalPost target (Scenario.browser_storing (Some Malformed))).1.1
  = Ok None.
Proof. repeat split; vm_compute; reflexivity. Qed.

End LocalStorageFacts.

(** ** The deletion path of the detail view *)

Module PostDetailFacts.
Import JS Runtime LocalStorage PostDetail Vocabulary LocalStorageFacts.

Lemma filter_other_ids_shorter (target : string) (ps : list LocalPost) :
  NoDup (map id ps) → target ∈ map id ps →
  S (length (filter (fun p => id p ≠ target) ps)) = length ps.
Proof.
  induction ps as [|p ps IH]; simpl.
  - intros _ H. by apply elem_of_nil in H.
  - intros [Hp Hnd]%NoDup_cons Hin. rewrite filter_cons.
    case_decide as E; simpl.
    + f_equal. apply IH; [done|].
      apply elem_of_cons in Hin as [?|?]; [congruence|done].
    + f_equal. assert (id p = target) as <- by (by destruct (decide (id p = target))).
      clear IH Hin E. induction ps as [|q ps IH]; [done|].
      simpl in Hp. apply not_elem_of_cons in Hp as [Hq Hp].
      apply NoDup_cons in Hnd as [_ Hnd].
      rewrite filter_cons_True by congruence. simpl. f_equal. by apply IH.
Qed.

(** The whole deletion, whatever the identifier, the remote outcome and the
    state of the storage. *)
Lemma deleteMutation_mutate_run (postId : string) (remote : RemoteOutcome)
  (b : Browser) :
  ∃ b' evs,
    deleteMutation_mutate postId remote b
    = (Ok tt, b', RemoteDeleteRequest postId :: evs) ∧
    if String_startsWith postId "local_"
    then ∃ sevs, deleteLocalPost postId b = (Ok tt, b', sevs) ∧
                 Forall storage_event sevs ∧
                 evs = sevs ++ [InvalidateQueries "GetPosts"; RouterPush "/"]
    else b' = b ∧
         evs = match remote with
               | Resolved _ => [InvalidateQueries "GetPosts"; RouterPush "/"]
               | Rejected _ => [ConsoleError "記事削除エラー:"]
               end.
Proof.
  unfold deleteMutation_mutate, onSuccess, onError, bind at 1, emit at 1.
  destruct (String_startsWith postId "local_") eqn:Hprefix.
  - destruct (deleteLocalPost_total postId b) as (b' & sevs & Hdel & Hev).
    exists b', (sevs ++ [InvalidateQueries "GetPosts"; RouterPush "/"]).
    split; [|by eauto].
    destruct remote; unfold bind, emit; rewrite Hdel; simpl; done.
  - destruct remote; unfold bind, emit, ret, console_error, emit; simpl; eauto.
Qed.

(** C4 (as the code has it). The remote deletion is always requested, and
    requested first.  For an identifier carrying the [local_] prefix the
    local-storage removal is attempted once the request has settled, whether
    it succeeded or failed, after which the listing is refreshed and the view
    navigates home.  For any other identifier a success refreshes the listing
    and navigates home, while a failure is only logged on the console: local
    storage is untouched and the view stays.  In no case does the operation
    raise or show an error to the user. *)
Theorem delete_requests_remote_first_then_cleans_local_ids
  (postId : string) (remote : RemoteOutcome) (b : Browser) :
  ∃ b' evs,
    deleteMutation_mutate postId remote b
    = (Ok tt, b', RemoteDeleteRequest postId :: evs) ∧
    if String_startsWith postId "local_"
    then ∃ sevs, deleteLocalPost postId b = (Ok tt, b', sevs) ∧
                 Forall storage_event sevs ∧
                 evs = sevs ++ [InvalidateQueries "GetPosts"; RouterPush "/"]
    else b' = b ∧
         evs = match remote with
               | Resolved _ => [InvalidateQueries "GetPosts"; RouterPush "/"]
               | Rejected _ => [ConsoleError "記事削除エラー:"]
               end.
Proof. apply deleteMutation_mutate_run. Qed.

(** C4, as stated, fails: after a failed remote deletion of the remote
    identifier [42] the operation neither refreshes the listing nor navigates
    away nor touches local storage; and for a local identifier the removal
    follows the remote request instead of preceding it, the failure being
    logged nowhere. *)
Lemma delete_failure_is_not_completed_for_remote_ids :
  deleteMutation_mutate "42" (Rejected (ErrorObject "Failed to fetch"))
    (Scenario.browser_storing (Scenario.collection [Scenario.local_12345_abc]))
  = (Ok tt,
     Scenario.browser_storing (Scenario.collection [Scenario.local_12345_abc]),
     [RemoteDeleteRequest "42"; ConsoleError "記事削除エラー:"]) ∧
  (RouterPush "/" ∉ [RemoteDeleteRequest "42"; ConsoleError "記事削除エラー:"]) ∧
  (InvalidateQueries "GetPosts"
     ∉ [RemoteDeleteRequest "42"; ConsoleError "記事削除エラー:"]) ∧
  (deleteMutation_mutate "local_12345_abc"
     (Rejected (ErrorObject "Failed to fetch"))
     (Scenario.browser_storing (Scenario.collection [Scenario.local_12345_abc]))).2
  = [RemoteDeleteRequest "local_12345_abc"; StorageSetItem STORAGE_KEY;
     InvalidateQueries "GetPosts"; RouterPush "/"].
Proof.
  split; [vm_compute; reflexivity|].
  split; [by intros [?|[?|?%elem_of_nil]%elem_of_cons]%elem_of_cons|].
  split; [by intros [?|[?|?%elem_of_nil]%elem_of_cons]%elem_of_cons|].
  vm_compute; reflexivity.
Qed.

(** C5. Deleting an identifier without the [local_] prefix leaves the browser
    storage exactly as it was, whether the remote deletion succeeds or fails;
    deleting a [local_] identifier on a usable storage holding a collection
    leaves the collection without any entry of that identifier and with every
    other entry in place, so that, identifiers being unique and the
    identifier present, exactly one entry is gone. *)
Theorem delete_touches_local_storage_only_for_local_ids
  (postId : string) (remote : RemoteOutcome) (b : Browser) :
  (String_startsWith postId "local_" = false →
   ∃ evs, deleteMutation_mutate postId remote b = (Ok tt, b, evs)) ∧
  (String_startsWith postId "local_" = true →
   ∀ ps, holds b ps →
     ∃ b' evs,
       deleteMutation_mutate postId remote b = (Ok tt, b', evs) ∧
       holds b' (filter (fun p => id p ≠ postId) ps) ∧
       (postId ∉ map id (filter (fun p => id p ≠ postId) ps)) ∧
       (∀ p, p ∈ ps → id p ≠ postId → p ∈ filter (fun p => id p ≠ postId) ps) ∧
       (NoDup (map id ps) → postId ∈ map id ps →
        S (length (filter (fun p => id p ≠ postId) ps)) = length ps)).
Proof.
  destruct (deleteMutation_mutate_run postId remote b) as (b' & evs & Hrun & H).
  split; intros Hprefix; rewrite Hprefix in H.
  - destruct H as [-> _]. eauto.
  - intros ps Hb. destruct H as (sevs & Hdel & _ & _).
    rewrite (deleteLocalPost_operational postId b ps Hb) in Hdel.
    injection Hdel as <- _.
    exists (with_items b
              (<[STORAGE_KEY := Serialized
                   (JArr (map toJSON (filter (fun p => id p ≠ postId) ps)))]>
                 (items b))), (RemoteDeleteRequest postId :: evs).
    split; [exact Hrun|].
    split; [apply holds_with_items, Hb|].
    split.
    { intros (p & E & Hp%list_elem_of_filter)%list_elem_of_fmap.
      destruct Hp as [Hp _]. by apply Hp. }
    split; [intros p Hp Hne; by apply list_elem_of_filter|].
    apply filter_other_ids_shorter.
Qed.

Lemma delete_touches_local_storage_only_for_local_ids_witness :
  (String_startsWith "42" "local_" = false ∧
   ∃ evs,
     deleteMutation_mutate "42" (Rejected (ErrorObject "Failed to fetch"))
       (Scenario.browser_storing (Scenario.collection [Scenario.local_12345_abc]))
     = (Ok tt,
        Scenario.browser_storing (Scenario.collection [Scenario.local_12345_abc]),
        evs)) ∧
  (String_startsWith "local_12345_abc" "local_" = true ∧
   holds (Scenario.browser_storing
            (Scenario.collection [Scenario.local_1; Scenario.local_12345_abc]))
         [Scenario.local_1; Scenario.local_12345_abc] ∧
   ∃ b' evs,
     deleteMutation_mutate "local_12345_abc" (Resolved true)
       (Scenario.browser_storing
          (Scenario.collection [Scenario.local_1; Scenario.local_12345_abc]))
     = (Ok tt, b', evs) ∧
     holds b' [Scenario.local_1]).
Proof.
  split.
  - split; [reflexivity|].
    apply (delete_touches_local_storage_only_for_local_ids "42"
             (Rejected (ErrorObject "Failed to fetch"))).
    reflexivity.
  - split; [reflexivity|].
    assert (H : holds (Scenario.browser_storing
                         (Scenario.collection
                            [Scenario.local_1; Scenario.local_12345_abc]))
                      [Scenario.local_1; Scenario.local_12345_abc]).
    { split; [by repeat split|]. vm_compute. reflexivity. }
    split; [exact H|].
    destruct (delete_touches_local_storage_only_for_local_ids "local_12345_abc"
                (Resolved true)
                (Scenario.browser_storing
                   (Scenario.collection
                      [Scenario.local_1; Scenario.local_12345_abc])))
      as [_ Hlocal].
    destruct (Hlocal eq_refl _ H) as (b' & evs & Hrun & Hb' & _).
    exists b', evs. split; [exact Hrun|exact Hb'].
Defined.

End PostDetailFacts.

(** ** The fallback writer of the create form *)

Module PostFormFacts.
Import JS Runtime PostForm LocalStorage Vocabulary LocalStorageFacts.

Lemma generated_id_is_local (now : Z) (random36 : string) :
  String_startsWith (generateLocalPostId now random36) "local_" = true.
Proof.
  unfold String_startsWith, generateLocalPostId. simpl.
  match goal with |- String.prefix "" ?s = true => by destruct s end.
Qed.

Lemma substring_length_le (start len : nat) (s : string) :
  String.length (String.substring start len s) ≤ len.
Proof.
  revert start len. induction s as [|c s IH]; intros [|start] [|len]; simpl;
    try lia.
  - specialize (IH 0 len). lia.
  - apply (IH start 0).
  - apply (IH start (S len)).
Qed.

(** On a connectivity-classified failure [onError] saves the fallback post
    and announces success, whatever the state of the storage. *)
Lemma onError_connectivity (message : string)
  (variables : CreatePostMutationVariables) (now : Z) (random36 : string)
  (clock : Z) (b : Browser) :
  mentions_connectivity message = true →
  ∃ b' sevs,
    saveLocalPost (fallbackPost variables now random36 clock) b = (Ok tt, b', sevs) ∧
    Forall storage_event sevs ∧
    onError (ErrorObject message) variables now random36 clock b
    = (Ok tt, b',
       ConsoleWarn "サーバーに接続できません。ローカルストレージに保存します。"
       :: sevs ++ success_effects (fallbackPost variables now random36 clock)).
Proof.
  intros Hc. unfold onError. rewrite Hc.
  destruct (saveLocalPost_total (fallbackPost variables now random36 clock) b)
    as (b' & sevs & Hsave & Hev).
  exists b', sevs. split; [exact Hsave|]. split; [exact Hev|].
  unfold bind at 1, console_warn, emit at 1. unfold bind at 1. rewrite Hsave.
  reflexivity.
Qed.

(** On any other failure [onError] only logs. *)
Lemma onError_other (error : Thrown)
  (variables : CreatePostMutationVariables) (now : Z) (random36 : string)
  (clock : Z) (b : Browser) :
  match error with
  | ErrorObject message => mentions_connectivity message = false
  | NotAnError => True
  end →
  onError error variables now random36 clock b
  = (Ok tt, b, [ConsoleError "投稿作成エラー:"]).
Proof.
  unfold onError. destruct error as [message|]; [intros ->|]; reflexivity.
Qed.

Lemma showSuccessMessage_after_app (initial : bool) (tr1 tr2 : list Event) :
  showSuccessMessage_after initial (tr1 ++ tr2)
  = showSuccessMessage_after (showSuccessMessage_after initial tr1) tr2.
Proof. unfold showSuccessMessage_after. apply fold_left_app. Qed.

Lemma showSuccessMessage_after_storage (initial : bool) (evs : list Event) :
  Forall storage_event evs → showSuccessMessage_after initial evs = initial.
Proof.
  unfold showSuccessMessage_after. revert initial.
  induction evs as [|e evs IH]; intros initial Hev; [done|].
  apply Forall_cons in Hev as [He Hev]. simpl. rewrite IH by done.
  by destruct e.
Qed.

(** On a usable storage holding a collection, a connectivity-classified
    failure leaves the fallback post saved and the success panel shown. *)
Lemma onError_connectivity_holds (message : string)
  (variables : CreatePostMutationVariables) (now : Z) (random36 : string)
  (clock : Z) (b : Browser) (ps : list LocalPost) :
  mentions_connectivity message = true → holds b ps →
  ∃ b' evs,
    onError (ErrorObject message) variables now random36 clock b = (Ok tt, b', evs) ∧
    holds b' (saved (fallbackPost variables now random36 clock) ps) ∧
    evs = ConsoleWarn "サーバーに接続できません。ローカルストレージに保存します。"
          :: (read_events (items b !! STORAGE_KEY) ++ [StorageSetItem STORAGE_KEY])
          ++ success_effects (fallbackPost variables now random36 clock) ∧
    showSuccessMessage_after false evs = true.
Proof.
  intros Hc Hb.
  destruct (onError_connectivity message variables now random36 clock b Hc)
    as (b' & sevs & Hsave & Hev & Hrun).
  rewrite (saveLocalPost_operational _ b ps Hb) in Hsave.
  injection Hsave as <- <-.
  eexists _, _. split; [exact Hrun|].
  split; [apply holds_with_items, Hb|]. split; [reflexivity|].
  change (?x :: ?l ++ ?r) with ([x] ++ l ++ r).
  rewrite (showSuccessMessage_after_app false [_] (_ ++ _)).
  rewrite (showSuccessMessage_after_app _ (_ ++ _) (success_effects _)).
  rewrite (showSuccessMessage_after_storage _ _ Hev). reflexivity.
Qed.

(** C3. When the create fails with the message "Failed to fetch" on a usable
    storage, a [LocalPost] whose fresh identifier starts with [local_] is in
    local storage afterwards and the form shows success instead of an error;
    when it fails with "Validation failed: title required", local storage is
    unchanged and the message is displayed in the error banner. *)
Theorem create_failure_falls_back_only_on_connectivity_errors
  (variables : CreatePostMutationVariables) (now : Z) (random36 : string)
  (clock : Z) (b : Browser) :
  (∀ ps, holds b ps →
     ∃ b' evs localPost,
       onError (ErrorObject "Failed to fetch") variables now random36 clock b
       = (Ok tt, b', evs) ∧
       id localPost = generateLocalPostId now random36 ∧
       String_startsWith (id localPost) "local_" = true ∧
       holds b' (saved localPost ps) ∧
       localPost ∈ saved localPost ps ∧
       SetShowSuccessMessage true ∈ evs ∧
       SetTimeout [CallOnSuccess; RouterPush ("/posts/" +:+ id localPost)] 2000
         ∈ evs ∧
       (∀ msg, ConsoleError msg ∈ evs →
               msg = "Failed to read from localStorage:") ∧
       PostForm.PostForm (showSuccessMessage_after false evs)
         (Some (ErrorObject "Failed to fetch")) = SuccessPanel) ∧
  (onError (ErrorObject "Validation failed: title required")
     variables now random36 clock b
   = (Ok tt, b, [ConsoleError "投稿作成エラー:"]) ∧
   PostForm.PostForm
     (showSuccessMessage_after false [ConsoleError "投稿作成エラー:"])
     (Some (ErrorObject "Validation failed: title required"))
   = Form (Some "Validation failed: title required")).
Proof.
  split.
  - intros ps Hb.
    destruct (onError_connectivity_holds "Failed to fetch" variables now
                random36 clock b ps eq_refl Hb)
      as (b' & evs & Hrun & Hb' & Hevs & Hafter).
    exists b', evs, (fallbackPost variables now random36 clock).
    split; [exact Hrun|]. split; [reflexivity|].
    split; [apply generated_id_is_local|]. split; [exact Hb'|].
    split; [apply elem_of_saved|].
    split; [|split; [|split; [|by rewrite Hafter]]]; rewrite Hevs.
    + right. apply elem_of_app. right. unfold success_effects. right. left.
    + right. apply elem_of_app. right. unfold success_effects.
      do 5 right. left.
    + intros msg [?|Hin]%elem_of_cons; [done|].
      apply elem_of_app in Hin as [Hin|Hin].
      * apply elem_of_app in Hin as [Hin|Hin].
        -- unfold read_events in Hin.
           destruct (items b !! STORAGE_KEY) as [[| |v]|];
             try (by apply elem_of_nil in Hin).
           apply list_elem_of_singleton in Hin. congruence.
        -- apply list_elem_of_singleton in Hin. done.
      * unfold success_effects in Hin.
        repeat (apply elem_of_cons in Hin as [?|Hin]; [done|]).
        by apply elem_of_nil in Hin.
  - split; [by apply onError_other|reflexivity].
Qed.

Lemma create_failure_falls_back_only_on_connectivity_errors_witness :
  holds (Scenario.browser_storing None) [] ∧
  ∃ b' evs localPost,
    onError (ErrorObject "Failed to fetch") Scenario.submitted
      1717171717171 "0.4fzyo82mvyr" 1717171717171 (Scenario.browser_storing None)
    = (Ok tt, b', evs) ∧
    id localPost = "local_1717171717171_4fzyo82mv" ∧
    holds b' [localPost].
Proof.
  assert (H : holds (Scenario.browser_storing None) []).
  { split; [by repeat split|]. vm_compute. reflexivity. }
  split; [exact H|].
  destruct (create_failure_falls_back_only_on_connectivity_errors
              Scenario.submitted 1717171717171 "0.4fzyo82mvyr" 1717171717171
              (Scenario.browser_storing None)) as [Hfetch _].
  destruct (Hfetch [] H) as (b' & evs & localPost & Hrun & Hid & _ & Hb' & _).
  exists b', evs, localPost. split; [exact Hrun|].
  split; [rewrite Hid; vm_compute; reflexivity|exact Hb'].
Defined.

(** C9. Every generated identifier is [local_], the decimal reading of the
    clock, an underscore and at most nine characters cut out of the random
    text, hence starts with [local_]; and on a connectivity-classified create
    failure the post left in a usable storage carries such an identifier, the
    submitted title, body, tags and author id, and the current time in ISO
    form as its publication time. *)
Theorem local_ids_are_prefixed_and_fallback_post_is_composed
  (message : string) (variables : CreatePostMutationVariables) (now : Z)
  (random36 : string) (clock : Z) (b : Browser) (ps : list LocalPost) :
  mentions_connectivity message = true → holds b ps →
  (∃ suffix,
     generateLocalPostId now random36
     = "local_" +:+ Number_toString now +:+ "_" +:+ suffix ∧
     suffix = String_substr random36 2 9 ∧ String.length suffix ≤ 9) ∧
  String_startsWith (generateLocalPostId now random36) "local_" = true ∧
  ∃ b' evs localPost,
    onError (ErrorObject message) variables now random36 clock b
    = (Ok tt, b', evs) ∧
    holds b' (saved localPost ps) ∧ localPost ∈ saved localPost ps ∧
    id localPost = generateLocalPostId now random36 ∧
    title localPost = PostForm.title (input variables) ∧
    body localPost = PostForm.body (input variables) ∧
    tags localPost = default [] (PostForm.tags (input variables)) ∧
    author_id (author localPost) = authorId (input variables) ∧
    author_avatarUrl (author localPost) = None ∧
    publishedAt localPost = JSDate.toISOString clock.
Proof.
  intros Hc Hb. split.
  { eexists. split; [reflexivity|]. split; [reflexivity|].
    apply substring_length_le. }
  split; [apply generated_id_is_local|].
  destruct (onError_connectivity_holds message variables now random36 clock
              b ps Hc Hb) as (b' & evs & Hrun & Hb' & _).
  exists b', evs, (fallbackPost variables now random36 clock).
  split; [exact Hrun|]. split; [exact Hb'|]. split; [apply elem_of_saved|].
  repeat split.
Qed.

Lemma local_ids_are_prefixed_and_fallback_post_is_composed_witness :
  mentions_connectivity "NetworkError when attempting to fetch resource." = true ∧
  holds (Scenario.browser_storing (Scenario.collection [Scenario.local_999]))
        [Scenario.local_999] ∧
  generateLocalPostId 1717171717171 "0.4fzyo82mvyr"
  = "local_1717171717171_4fzyo82mv" ∧
  ∃ b' evs localPost,
    onError (ErrorObject "NetworkError when attempting to fetch resource.")
      Scenario.submitted 1717171717171 "0.4fzyo82mvyr" 1717171717171
      (Scenario.browser_storing (Scenario.collection [Scenario.local_999]))
    = (Ok tt, b', evs) ∧
    holds b' (saved localPost [Scenario.local_999]) ∧
    publishedAt localPost = "2024-05-31T16:08:37.171Z".
Proof.
  assert (H : holds
                (Scenario.browser_storing (Scenario.collection [Scenario.local_999]))
                [Scenario.local_999]).
  { split; [by repeat split|]. vm_compute. reflexivity. }
  split; [reflexivity|]. split; [exact H|]. split; [vm_compute; reflexivity|].
  destruct (local_ids_are_prefixed_and_fallback_post_is_composed
              "NetworkError when attempting to fetch resource."
              Scenario.submitted 1717171717171 "0.4fzyo82mvyr" 1717171717171
              (Scenario.browser_storing (Scenario.collection [Scenario.local_999]))
              [Scenario.local_999] eq_refl H)
    as (_ & _ & b' & evs & localPost & Hrun & Hb' & _ & _ & _ & _ & _ & _ & _ & Hat).
  exists b', evs, localPost. split; [exact Hrun|]. split; [exact Hb'|].
  rewrite Hat. vm_compute. reflexivity.
Defined.

Lemma known_author_ids :
  map PostForm.id AUTHORS = ["1"; "2"; "3"; "4"; "5"].
Proof. reflexivity. Qed.

Lemma authorName_of_unknown (a : string) :
  a ∉ ["1"; "2"; "3"; "4"; "5"] → authorName_of a = "不明".
Proof.
  intros Hn. unfold authorName_of, AUTHORS.
  cbn [List.find PostForm.id PostForm.name].
  repeat match goal with
         | |- context [String.eqb ?k a] =>
             destruct (String.eqb_spec k a) as [E|_];
             [exfalso; apply Hn; rewrite <- E;
              repeat first [by left | right]|]
         end.
  reflexivity.
Qed.

Lemma authorName_of_known (k : KnownAuthor) :
  k ∈ AUTHORS → authorName_of (PostForm.id k) = PostForm.name k.
Proof.
  unfold AUTHORS. intros Hk.
  repeat (apply elem_of_cons in Hk as [->|Hk]; [reflexivity|]).
  by apply elem_of_nil in Hk.
Qed.

(** C10. The fallback post keeps the submitted author id; its author name is
    the placeholder 不明 when that id is none of the five known ids ["1"] to
    ["5"], and the name of the matching known author otherwise; this is the
    post left in storage on the fallback write path. *)
Theorem fallback_author_name_is_looked_up_or_unknown
  (variables : CreatePostMutationVariables) (now : Z) (random36 : string)
  (clock : Z) :
  let localPost := fallbackPost variables now random36 clock in
  author_id (author localPost) = authorId (input variables) ∧
  (authorId (input variables) ∉ ["1"; "2"; "3"; "4"; "5"] →
   author_name (author localPost) = "不明") ∧
  (∀ k, k ∈ AUTHORS → PostForm.id k = authorId (input variables) →
        author_name (author localPost) = PostForm.name k) ∧
  (∀ message b ps, mentions_connectivity message = true → holds b ps →
     ∃ b' evs,
       onError (ErrorObject message) variables now random36 clock b
       = (Ok tt, b', evs) ∧
       holds b' (saved localPost ps) ∧ localPost ∈ saved localPost ps).
Proof.
  intros localPost. split; [reflexivity|]. split; [|split].
  - intros Hn. simpl. by apply authorName_of_unknown.
  - intros k Hk E. simpl. rewrite <- E. by apply authorName_of_known.
  - intros message b ps Hc Hb.
    destruct (onError_connectivity_holds message variables now random36 clock
                b ps Hc Hb) as (b' & evs & Hrun & Hb' & _).
    exists b', evs. split; [exact Hrun|]. split; [exact Hb'|].
    apply elem_of_saved.
Qed.

Lemma fallback_author_name_is_looked_up_or_unknown_witness :
  (("6" ∉ ["1"; "2"; "3"; "4"; "5"]) ∧
   author_name (author (fallbackPost (Scenario.submitted_by "6")
                          1717171717171 "0.4fzyo82mvyr" 1717171717171))
   = "不明") ∧
  ({| PostForm.id := "3"; PostForm.name := "鈴木花子" |} ∈ AUTHORS ∧
   author_name (author (fallbackPost Scenario.submitted
                          1717171717171 "0.4fzyo82mvyr" 1717171717171))
   = "鈴木花子").
Proof.
  split.
  - assert (Hn : "6" ∉ ["1"; "2"; "3"; "4"; "5"]).
    { intros H. repeat (apply elem_of_cons in H as [?|H]; [done|]).
      by apply elem_of_nil in H. }
    split; [exact Hn|].
    destruct (fallback_author_name_is_looked_up_or_unknown
                (Scenario.submitted_by "6") 1717171717171 "0.4fzyo82mvyr"
                1717171717171) as (_ & Hunknown & _).
    exact (Hunknown Hn).
  - assert (Hk : {| PostForm.id := "3"; PostForm.name := "鈴木花子" |} ∈ AUTHORS).
    { unfold AUTHORS. do 2 right. left. }
    split; [exact Hk|].
    destruct (fallback_author_name_is_looked_up_or_unknown
                Scenario.submitted 1717171717171 "0.4fzyo82mvyr"
                1717171717171) as (_ & _ & Hknown & _).
    exact (Hknown _ Hk eq_refl).
Defined.

End PostFormFacts.

(** ** The merge scenario, run *)

Module ScenarioFacts.
Import JS PostList Vocabulary PostListFacts.

(** Remote [1 (A, January)], local [1 (edited), local_999 (B, June)]: the
    view shows [local_999] first, then the remote entry [1]. *)
Example merge_scenario :
  mergedPosts JSDate.getTime
    (Some {| posts := [Scenario.remote_1] |})
    [Scenario.local_1; Scenario.local_999]
  = [ {| id := "local_999"; title := "B";
         publishedAt := "2024-06-01T00:00:00Z";
         author := {| name := "髙橋慶祐" |} |};
      Scenario.remote_1 ].
Proof. vm_compute. reflexivity. Qed.

(** Entries published at the same instant stay in the order remote, local. *)
Example merge_scenario_ties :
  map id
    (mergedPosts JSDate.getTime
       (Some {| posts := [Scenario.remote_1] |})
       [Scenario.local_post "local_a" "x" "2024-01-01T00:00:00.000Z";
        Scenario.local_post "local_b" "y" "2024-01-01";
        Scenario.local_999])
  = ["local_999"; "1"; "local_a"; "local_b"].
Proof. vm_compute. reflexivity. Qed.

(** The time written by the fallback writer reads back as the clock value. *)
Example iso_round_trip :
  JSDate.getTime (JSDate.toISOString 1717171717171) = Some 1717171717171%Z.
Proof. vm_compute. reflexivity. Qed.

Lemma merged_view_sorted_descending_stable_witness :
  (∀ p, p ∈ serverPosts (Some {| posts := [Scenario.remote_1] |})
            ++ convertedLocalPosts [Scenario.local_1; Scenario.local_999] →
        is_Some (JSDate.getTime (publishedAt p))) ∧
  StronglySorted (not_older JSDate.getTime)
    (mergedPosts JSDate.getTime
       (Some {| posts := [Scenario.remote_1] |})
       [Scenario.local_1; Scenario.local_999]).
Proof.
  assert (H : ∀ p, p ∈ serverPosts (Some {| posts := [Scenario.remote_1] |})
                       ++ convertedLocalPosts [Scenario.local_1; Scenario.local_999] →
                   is_Some (JSDate.getTime (publishedAt p))).
  { intros p Hp. simpl in Hp.
    repeat (apply elem_of_cons in Hp as [->|Hp]; [vm_compute; eauto|]).
    by apply elem_of_nil in Hp. }
  split; [exact H|].
  apply (merged_view_sorted_descending_stable JSDate.getTime
           (Some {| posts := [Scenario.remote_1] |})
           [Scenario.local_1; Scenario.local_999] H).
Defined.

Lemma list_view_swallows_errors_and_shows_empty_state_witness :
  isLoading (Scenario.failed (ErrorObject "Failed to fetch")) = false ∧
  PostList JSDate.getTime false [] (Scenario.failed (ErrorObject "Failed to fetch"))
  = Page false NoPosts ∧
  PostList JSDate.getTime false [Scenario.local_999]
    (Scenario.failed (ErrorObject "Failed to fetch"))
  = PostList JSDate.getTime false [Scenario.local_999] (Scenario.settled []).
Proof.
  split; [reflexivity|].
  destruct (list_view_swallows_errors_and_shows_empty_state JSDate.getTime
              false [] (Scenario.failed (ErrorObject "Failed to fetch")) eq_refl)
    as (_ & _ & Hempty & _).
  destruct (list_view_swallows_errors_and_shows_empty_state JSDate.getTime
              false [Scenario.local_999]
              (Scenario.failed (ErrorObject "Failed to fetch")) eq_refl)
    as (Habsent & _).
  split; [exact (Hempty eq_refl eq_refl)|exact (Habsent eq_refl)].
Defined.

End ScenarioFacts.

(** ** More on the persistence operations *)

Module LocalStorageMore.
Import JS Runtime LocalStorage Vocabulary Terms LocalStorageFacts.

Lemma saved_nil (post : LocalPost) : saved post [] = [post].
Proof. reflexivity. Qed.

Lemma saved_cons (post p : LocalPost) (ps : list LocalPost) :
  saved post (p :: ps)
  = if decide (id p = id post) then post :: ps else p :: saved post ps.
Proof.
  unfold saved. cbn [list_find]. case_decide; [done|].
  by destruct (list_find _ ps) as [[k q]|].
Qed.

Lemma list_find_saved_same (post : LocalPost) (ps : list LocalPost) :
  snd <$> list_find (fun p => id p = id post) (saved post ps) = Some post.
Proof.
  induction ps as [|p ps IH]; [cbn; by rewrite decide_True|].
  rewrite saved_cons. case_decide as E; cbn [list_find].
  - by rewrite decide_True.
  - rewrite decide_False by done.
    destruct (list_find _ (saved post ps)) as [[k q]|]; simpl in *; congruence.
Qed.

Lemma list_find_saved_other (target : string) (post : LocalPost)
  (ps : list LocalPost) :
  target ≠ id post →
  snd <$> list_find (fun p => id p = target) (saved post ps)
  = snd <$> list_find (fun p => id p = target) ps.
Proof.
  intros Hne. induction ps as [|p ps IH].
  - cbn. by rewrite decide_False by congruence.
  - rewrite saved_cons. case_decide as E; cbn [list_find].
    + rewrite !decide_False by congruence. done.
    + case_decide; [done|].
      destruct (list_find _ (saved post ps)) as [[k q]|];
        destruct (list_find _ ps) as [[k' q']|]; simpl in *; congruence.
Qed.

Lemma list_find_filter_gone (target : string) (ps : list LocalPost) :
  list_find (fun p => id p = target) (filter (fun p => id p ≠ target) ps) = None.
Proof.
  apply list_find_None, Forall_forall.
  intros p [Hp _]%list_elem_of_filter. done.
Qed.

Lemma saved_ids_NoDup (post : LocalPost) (ps : list LocalPost) :
  NoDup (map id ps) → NoDup (map id (saved post ps)).
Proof.
  induction ps as [|p ps IH]; [intros _; cbn; apply NoDup_singleton|].
  rewrite saved_cons. cbn [map]. intros [Hp Hnd]%NoDup_cons.
  case_decide as E; cbn [map]; apply NoDup_cons.
  - by rewrite <- E.
  - split; [|by apply IH].
    intros (q & Hq & Hin)%list_elem_of_fmap. apply Hp.
    clear IH Hnd Hp. induction ps as [|r ps IH].
    + cbn in Hin. apply list_elem_of_singleton in Hin. congruence.
    + rewrite saved_cons in Hin. case_decide as E'.
      * apply elem_of_cons in Hin as [->|Hin]; [congruence|].
        cbn [map]. right. rewrite Hq. by apply list_elem_of_fmap_2.
      * apply elem_of_cons in Hin as [->|Hin]; [rewrite Hq; left|].
        cbn [map]. right. by apply IH.
Qed.

Lemma filter_ids_NoDup (target : string) (ps : list LocalPost) :
  NoDup (map id ps) → NoDup (map id (filter (fun p => id p ≠ target) ps)).
Proof.
  induction ps as [|p ps IH]; [done|].
  cbn [map]. intros [Hp Hnd]%NoDup_cons. rewrite filter_cons.
  case_decide; [|by apply IH]. cbn [map]. apply NoDup_cons.
  split; [|by apply IH].
  intros (q & Hq & [_ Hin]%list_elem_of_filter)%list_elem_of_fmap.
  apply Hp. rewrite Hq. by apply list_elem_of_fmap_2.
Qed.

(** X1. On a usable storage, get-one of the identifier of a post that was
    just saved returns that post, whatever the collection held before. *)
Theorem save_then_get_one_returns_the_post (post : LocalPost) (b : Browser)
  (ps : list LocalPost) :
  holds b ps →
  ∃ b' evs evs',
    saveLocalPost post b = (Ok tt, b', evs) ∧
    getLocalPost (id post) b' = (Ok (Some (toJSON post)), b', evs').
Proof.
  intros Hb. pose proof Hb as [Hop _].
  eexists _, _, _. split; [by apply saveLocalPost_operational|].
  rewrite (getLocalPost_operational (id post) _ (saved post ps))
    by (by apply holds_with_items).
  by rewrite list_find_saved_same.
Qed.

(** X2. On a usable storage, get-one of an identifier that was just deleted
    answers "absent". *)
Theorem delete_then_get_one_is_absent (target : string) (b : Browser)
  (ps : list LocalPost) :
  holds b ps →
  ∃ b' evs evs',
    deleteLocalPost target b = (Ok tt, b', evs) ∧
    getLocalPost target b' = (Ok None, b', evs').
Proof.
  intros Hb. pose proof Hb as [Hop _].
  eexists _, _, _. split; [by apply deleteLocalPost_operational|].
  rewrite (getLocalPost_operational target _
             (filter (fun p => id p ≠ target) ps))
    by (by apply holds_with_items).
  by rewrite list_find_filter_gone.
Qed.

(** X3. Saving a post leaves get-one of every other identifier as it was. *)
Theorem save_leaves_other_ids_alone (target : string) (post : LocalPost)
  (b : Browser) (ps : list LocalPost) :
  holds b ps → target ≠ id post →
  ∃ b' evs,
    saveLocalPost post b = (Ok tt, b', evs) ∧
    (getLocalPost target b').1.1 = (getLocalPost target b).1.1.
Proof.
  intros Hb Hne. pose proof Hb as [Hop _].
  eexists _, _. split; [by apply saveLocalPost_operational|].
  rewrite (getLocalPost_operational target _ (saved post ps))
    by (by apply holds_with_items).
  rewrite (getLocalPost_operational target b ps Hb). simpl.
  by rewrite list_find_saved_other.
Qed.

Lemma saved_saved (post : LocalPost) (ps : list LocalPost) :
  saved post (saved post ps) = saved post ps.
Proof.
  induction ps as [|p ps IH].
  - rewrite saved_nil, saved_cons. by rewrite decide_True.
  - rewrite saved_cons. case_decide as E.
    + rewrite saved_cons. by rewrite decide_True.
    + rewrite saved_cons. rewrite decide_False by done. by rewrite IH.
Qed.

(** X4. Saving the same post a second time changes nothing: the browser
    after the second save is the browser after the first. *)
Theorem save_twice_is_save_once (post : LocalPost) (b : Browser)
  (ps : list LocalPost) :
  holds b ps →
  ∃ b' evs evs',
    saveLocalPost post b = (Ok tt, b', evs) ∧
    saveLocalPost post b' = (Ok tt, b', evs').
Proof.
  intros Hb. pose proof Hb as [Hop _].
  eexists _, _, _. split; [by apply saveLocalPost_operational|].
  rewrite (saveLocalPost_operational post _ (saved post ps))
    by (by apply holds_with_items).
  rewrite saved_saved. unfold with_items. simpl.
  by rewrite insert_insert_eq.
Qed.

Lemma perform_keeps_unique_ids (op : StorageOp) (b : Browser)
  (ps : list LocalPost) :
  holds b ps → NoDup (map id ps) →
  ∃ ps', holds (perform b op) ps' ∧ NoDup (map id ps').
Proof.
  intros Hb Hnd. pose proof Hb as [Hop _]. destruct op as [post|target]; simpl.
  - rewrite (saveLocalPost_operational post b ps Hb). simpl.
    exists (saved post ps).
    split; [by apply holds_with_items|by apply saved_ids_NoDup].
  - rewrite (deleteLocalPost_operational target b ps Hb). simpl.
    exists (filter (fun p => id p ≠ target) ps).
    split; [by apply holds_with_items|by apply filter_ids_NoDup].
Qed.

(** X5. Identifiers stay unique: on a usable storage whose collection has
    unique identifiers (an empty one, for instance), after any sequence of
    save-one and delete-one the storage still holds a collection with unique
    identifiers. *)
Theorem saves_and_deletes_keep_ids_unique (ops : list StorageOp)
  (b : Browser) (ps : list LocalPost) :
  holds b ps → NoDup (map id ps) →
  ∃ ps', holds (foldl perform b ops) ps' ∧ NoDup (map id ps').
Proof.
  revert b ps. induction ops as [|op ops IH]; intros b ps Hb Hnd; simpl.
  - eauto.
  - destruct (perform_keeps_unique_ids op b ps Hb Hnd) as (ps1 & Hb1 & Hnd1).
    by apply (IH _ ps1).
Qed.

Ltac close_console :=
  eexists; (split; [reflexivity|]);
  repeat first
    [ apply Forall_nil_2
    | apply Forall_cons_2; [exact I|]
    | apply Forall_app_2
    | assumption ].

Lemma saveLocalPost_unwritable (post : LocalPost) (b : Browser) :
  hasWindow b = false ∨ setItemRaises b = true →
  ∃ evs, saveLocalPost post b = (Ok tt, b, evs) ∧ Forall console_only evs.
Proof.
  intros Hfail.
  destruct (getLocalPosts_total b) as (v & gevs & Hget & Hev).
  unfold saveLocalPost, bind at 1, get_browser.
  destruct (hasWindow b) eqn:Hw; simpl; [|close_console].
  destruct Hfail as [?|Hs]; [done|].
  unfold try_catch, bind at 1. rewrite Hget.
  unfold localStorage_setItem, console_error.
  unfold bind, lift, get_browser, emit. rewrite Hs.
  destruct (as_array v) as [arr|e]; simpl; [|close_console].
  destruct (Array_findIndex _ arr) as [index|e]; simpl; close_console.
Qed.

Lemma deleteLocalPost_unwritable (target : string) (b : Browser) :
  hasWindow b = false ∨ setItemRaises b = true →
  ∃ evs, deleteLocalPost target b = (Ok tt, b, evs) ∧ Forall console_only evs.
Proof.
  intros Hfail.
  destruct (getLocalPosts_total b) as (v & gevs & Hget & Hev).
  unfold deleteLocalPost, bind at 1, get_browser.
  destruct (hasWindow b) eqn:Hw; simpl; [|close_console].
  destruct Hfail as [?|Hs]; [done|].
  unfold try_catch, bind at 1. rewrite Hget.
  unfold localStorage_setItem, console_error.
  unfold bind, lift, get_browser, emit. rewrite Hs.
  destruct (as_array v) as [arr|e]; simpl; [|close_console].
  destruct (Array_filter _ arr) as [filtered|e]; simpl; close_console.
Qed.

(** X6. When the storage cannot be written, or there is no window, save-one
    and delete-one leave the browser exactly as it was, without raising and
    without a write. *)
Theorem failed_write_leaves_storage_untouched (post : LocalPost)
  (target : string) (b : Browser) :
  hasWindow b = false ∨ setItemRaises b = true →
  ∃ evs evs',
    saveLocalPost post b = (Ok tt, b, evs) ∧
    deleteLocalPost target b = (Ok tt, b, evs') ∧
    Forall console_only evs ∧ Forall console_only evs'.
Proof.
  intros Hfail.
  destruct (saveLocalPost_unwritable post b Hfail) as (evs & Hs & Hev).
  destruct (deleteLocalPost_unwritable target b Hfail) as (evs' & Hd & Hev').
  by exists evs, evs'.
Qed.

(** X7. When the stored text is valid JSON that is not an array, whatever
    value it holds, get-one raises a [TypeError], while save-one and
    delete-one only log and leave the stored value in place. *)
Theorem non_array_storage_is_never_repaired (v : JSValue) (post : LocalPost)
  (target : string) (b : Browser) :
  operational b → items b !! STORAGE_KEY = Some (Serialized v) →
  (∀ l, v ≠ JArr l) →
  getLocalPost target b = (Throw TypeError, b, []) ∧
  saveLocalPost post b
  = (Ok tt, b, [ConsoleError "Failed to save to localStorage:"]) ∧
  deleteLocalPost target b
  = (Ok tt, b, [ConsoleError "Failed to delete from localStorage:"]).
Proof.
  intros Hop Hv Hna. pose proof Hop as (Hw & Hg & Hs).
  assert (Harr : as_array v = Throw TypeError).
  { destruct v; try reflexivity. by destruct (Hna items0). }
  split; [|split].
  - unfold getLocalPost, bind at 1.
    rewrite (getLocalPosts_operational b Hop), Hv. simpl.
    unfold bind, lift. by rewrite Harr.
  - unfold saveLocalPost, bind at 1, get_browser. rewrite Hw. simpl.
    unfold try_catch, bind at 1.
    rewrite (getLocalPosts_operational b Hop), Hv. simpl.
    unfold bind, lift. by rewrite Harr.
  - unfold deleteLocalPost, bind at 1, get_browser. rewrite Hw. simpl.
    unfold try_catch, bind at 1.
    rewrite (getLocalPosts_operational b Hop), Hv. simpl.
    unfold bind, lift. by rewrite Harr.
Qed.




Lemma all_chars_uint (d : Decimal.uint) :
  all_chars not_underscore (NilEmpty.string_of_uint d).
Proof. induction d; simpl; repeat split; try done. Qed.

Lemma all_chars_Number_toString (n : Z) :
  all_chars not_underscore (Number_toString n).
Proof.
  unfold Number_toString, NilZero.string_of_int, NilZero.string_of_uint.
  destruct (Z.to_int n) as [d|d]; destruct d; simpl; repeat split; try done;
    apply all_chars_uint.
Qed.

Lemma Number_toString_inj (n n' : Z) :
  Number_toString n = Number_toString n' → n = n'.
Proof.
  unfold Number_toString. intros H. apply to_int_inj.
  assert (Hnn : ∀ z, Z.to_int z ≠ Decimal.Pos Decimal.Nil ∧
                     Z.to_int z ≠ Decimal.Neg Decimal.Nil).
  { intros [|p|p]; simpl; split; try done; intros [= E];
      by apply Unsigned.to_uint_nonnil in E. }
  destruct (Hnn n) as [? ?], (Hnn n') as [? ?].
  assert (E : NilZero.int_of_string (NilZero.string_of_int (Z.to_int n))
              = NilZero.int_of_string (NilZero.string_of_int (Z.to_int n')))
    by (by rewrite H).
  rewrite !NilZero.isi in E by done. congruence.
Qed.

(** Text before the first underscore is determined by the whole text. *)
Lemma split_at_underscore (a a' s s' : string) :
  all_chars not_underscore a → all_chars not_underscore a' →
  a +:+ String "_" s = a' +:+ String "_" s' → a = a' ∧ s = s'.
Proof.
  revert a'. induction a as [|c a IH]; intros [|c' a']; simpl.
  - intros _ _ [= ->]. done.
  - intros _ [Hc _] [= <- _]. by destruct Hc.
  - intros [Hc _] _ [= -> _]. by destruct Hc.
  - intros [_ Ha] [_ Ha'] [= -> E]. destruct (IH a' Ha Ha' E) as [-> ->]. done.
Qed.

(** X9. Two generated identifiers are equal only if they were generated at
    the same clock reading with the same nine-character random suffix; in
    particular identifiers generated in different milliseconds never
    collide. *)
Theorem generated_ids_collide_only_in_the_same_millisecond
  (now now' : Z) (random36 random36' : string) :
  generateLocalPostId now random36 = generateLocalPostId now' random36' ↔
  now = now' ∧ String_substr random36 2 9 = String_substr random36' 2 9.
Proof.
  unfold generateLocalPostId. split.
  - simpl. intros [= E].
    apply split_at_underscore in E as [E1 E2];
      try apply all_chars_Number_toString.
    split; [by apply Number_toString_inj|done].
  - by intros [-> ->].
Qed.

Lemma sample_storage_holds :
  holds (Scenario.browser_storing
           (Scenario.collection [Scenario.local_1; Scenario.local_999]))
        [Scenario.local_1; Scenario.local_999].
Proof. split; [by repeat split|]. vm_compute. reflexivity. Qed.

Lemma save_then_get_one_returns_the_post_witness :
  ∃ b' evs evs',
    saveLocalPost Scenario.local_12345_abc
      (Scenario.browser_storing
         (Scenario.collection [Scenario.local_1; Scenario.local_999]))
    = (Ok tt, b', evs) ∧
    getLocalPost "local_12345_abc" b'
    = (Ok (Some (toJSON Scenario.local_12345_abc)), b', evs').
Proof.
  exact (save_then_get_one_returns_the_post Scenario.local_12345_abc _ _
           sample_storage_holds).
Defined.

Lemma delete_then_get_one_is_absent_witness :
  ∃ b' evs evs',
    deleteLocalPost "local_999"
      (Scenario.browser_storing
         (Scenario.collection [Scenario.local_1; Scenario.local_999]))
    = (Ok tt, b', evs) ∧
    getLocalPost "local_999" b' = (Ok None, b', evs').
Proof.
  exact (delete_then_get_one_is_absent "local_999" _ _ sample_storage_holds).
Defined.

Lemma save_leaves_other_ids_alone_witness :
  ∃ b' evs,
    saveLocalPost Scenario.local_12345_abc
      (Scenario.browser_storing
         (Scenario.collection [Scenario.local_1; Scenario.local_999]))
    = (Ok tt, b', evs) ∧
    (getLocalPost "local_999" b').1.1
    = (getLocalPost "local_999"
         (Scenario.browser_storing
            (Scenario.collection [Scenario.local_1; Scenario.local_999]))).1.1.
Proof.
  apply (save_leaves_other_ids_alone "local_999" Scenario.local_12345_abc _ _
           sample_storage_holds).
  discriminate.
Defined.

Lemma save_twice_is_save_once_witness :
  ∃ b' evs evs',
    saveLocalPost Scenario.local_999
      (Scenario.browser_storing
         (Scenario.collection [Scenario.local_1; Scenario.local_999]))
    = (Ok tt, b', evs) ∧
    saveLocalPost Scenario.local_999 b' = (Ok tt, b', evs').
Proof.
  exact (save_twice_is_save_once Scenario.local_999 _ _ sample_storage_holds).
Defined.

Lemma saves_and_deletes_keep_ids_unique_witness :
  ∃ ps',
    holds (foldl perform (Scenario.browser_storing None)
             [Save Scenario.local_999; Save Scenario.local_1;
              Save Scenario.local_999; Delete "1"])
          ps' ∧
    NoDup (map id ps').
Proof.
  apply (saves_and_deletes_keep_ids_unique _ (Scenario.browser_storing None) []).
  - split; [by repeat split|]. vm_compute. reflexivity.
  - constructor.
Defined.

Lemma failed_write_leaves_storage_untouched_witness :
  ∃ evs evs',
    saveLocalPost Scenario.local_999
      {| hasWindow := true; getItemRaises := false; setItemRaises := true;
         items := ∅ |}
    = (Ok tt,
       {| hasWindow := true; getItemRaises := false; setItemRaises := true;
          items := ∅ |}, evs) ∧
    deleteLocalPost "local_999"
      {| hasWindow := true; getItemRaises := false; setItemRaises := true;
         items := ∅ |}
    = (Ok tt,
       {| hasWindow := true; getItemRaises := false; setItemRaises := true;
          items := ∅ |}, evs') ∧
    Forall console_only evs ∧ Forall console_only evs'.
Proof.
  apply (failed_write_leaves_storage_untouched Scenario.local_999 "local_999").
  right. reflexivity.
Defined.

Lemma non_array_storage_is_never_repaired_witness :
  getLocalPost "local_999"
    (Scenario.browser_storing (Some (Serialized (JObj []))))
  = (Throw TypeError, Scenario.browser_storing (Some (Serialized (JObj []))), []) ∧
  saveLocalPost Scenario.local_999
    (Scenario.browser_storing (Some (Serialized (JObj []))))
  = (Ok tt, Scenario.browser_storing (Some (Serialized (JObj []))),
     [ConsoleError "Failed to save to localStorage:"]) ∧
  deleteLocalPost "local_999"
    (Scenario.browser_storing (Some (Serialized (JObj []))))
  = (Ok tt, Scenario.browser_storing (Some (Serialized (JObj []))),
     [ConsoleError "Failed to delete from localStorage:"]).
Proof.
  apply (non_array_storage_is_never_repaired (JObj []) Scenario.local_999
           "local_999").
  - by repeat split.
  - vm_compute. reflexivity.
  - discriminate.
Defined.


End LocalStorageMore.

(** ** More on the create form *)

Module PostFormMore.
Import JS Runtime PostForm LocalStorage Vocabulary Terms LocalStorageFacts
  PostFormFacts.

Lemma prefix_app (p s : string) : String.prefix p (p +:+ s) = true.
Proof.
  induction p as [|c p IH]; simpl; [by destruct s|].
  destruct (ascii_dec c c); [exact IH|done].
Qed.

Lemma prefix_split (p s : string) :
  String.prefix p s = true → ∃ rest, s = p +:+ rest.
Proof.
  revert s. induction p as [|c p IH]; intros s; simpl.
  - intros _. by exists s.
  - destruct s as [|c' s]; simpl; [done|].
    destruct (ascii_dec c c') as [->|]; [|done].
    intros [rest ->]%IH. by exists rest.
Qed.

Lemma append_assoc (a b c : string) : (a +:+ b) +:+ c = a +:+ (b +:+ c).
Proof.
  induction a as [|x a IH]; [reflexivity|].
  change (String x ((a +:+ b) +:+ c) = String x (a +:+ (b +:+ c))).
  by rewrite IH.
Qed.

Lemma String_includes_prefix (s needle : string) :
  String.prefix needle s = true → String_includes s needle = true.
Proof. intros H. destruct s; cbn [String_includes]; by rewrite H. Qed.

(** [includes] finds the needle wherever it is. *)
Lemma String_includes_app (pre needle post : string) :
  String_includes (pre +:+ needle +:+ post) needle = true.
Proof.
  induction pre as [|c pre IH].
  - change (String_includes (needle +:+ post) needle = true).
    apply String_includes_prefix, prefix_app.
  - change (String_includes (String c (pre +:+ needle +:+ post)) needle = true).
    cbn [String_includes]. rewrite IH. apply orb_true_r.
Qed.

Lemma String_includes_split (s needle : string) :
  String_includes s needle = true → ∃ pre post, s = pre +:+ needle +:+ post.
Proof.
  induction s as [|c s IH]; cbn [String_includes].
  - rewrite orb_false_r. intros [rest ->]%prefix_split. by exists "", rest.
  - intros [H|H]%orb_true_iff.
    + apply prefix_split in H as [rest ->]. by exists "", rest.
    + destruct (IH H) as (pre & post & ->). by exists (String c pre), post.
Qed.

Lemma String_includes_trans (s a needle : string) :
  String_includes s a = true → String_includes a needle = true →
  String_includes s needle = true.
Proof.
  intros (pre & post & ->)%String_includes_split
         (pre' & post' & ->)%String_includes_split.
  rewrite !append_assoc, <- (append_assoc pre pre').
  apply String_includes_app.
Qed.

Lemma mentions_connectivity_two_tests (message : string) :
  mentions_connectivity message
  = String_includes message "fetch" || String_includes message "Network".
Proof.
  unfold mentions_connectivity.
  destruct (String_includes message "Failed to fetch") eqn:E; [|done].
  rewrite (String_includes_trans message "Failed to fetch" "fetch" E eq_refl).
  done.
Qed.

(** X10. The classification of a failure as a connectivity problem depends
    only on whether the message contains "fetch" or "Network": the test for
    "Failed to fetch" never decides anything, and the tests are case
    sensitive substring tests, wherever the word stands in the message. *)
Theorem connectivity_test_is_fetch_or_network (message : string) :
  mentions_connectivity message
  = String_includes message "fetch" || String_includes message "Network" ∧
  (mentions_connectivity message = true ↔
   ∃ pre post, message = pre +:+ "fetch" +:+ post ∨
               message = pre +:+ "Network" +:+ post).
Proof.
  split; [apply mentions_connectivity_two_tests|].
  rewrite mentions_connectivity_two_tests, orb_true_iff. split.
  - intros [(pre & post & ->)%String_includes_split
           |(pre & post & ->)%String_includes_split];
      exists pre, post; eauto.
  - intros (pre & post & [-> | ->]); [left|right]; apply String_includes_app.
Qed.

(** X11. Any failure whose message contains "fetch" or "Network" anywhere,
    a validation message of the server included, takes the fallback path:
    the fallback post is handed to save-one, success is announced and no
    error banner is shown. *)
Theorem any_message_mentioning_fetch_triggers_the_fallback
  (pre post : string) (variables : CreatePostMutationVariables) (now : Z)
  (random36 : string) (clock : Z) (b : Browser) :
  ∀ word, word = "fetch"%string ∨ word = "Network"%string →
  let message := pre +:+ word +:+ post in
  errorBanner (Some (ErrorObject message)) = None ∧
  ∃ b' sevs,
    saveLocalPost (fallbackPost variables now random36 clock) b
    = (Ok tt, b', sevs) ∧
    onError (ErrorObject message) variables now random36 clock b
    = (Ok tt, b',
       ConsoleWarn "サーバーに接続できません。ローカルストレージに保存します。"
       :: sevs ++ success_effects (fallbackPost variables now random36 clock)).
Proof.
  intros word Hword message.
  assert (Hinc : String_includes message word = true)
    by apply String_includes_app.
  assert (Hc : mentions_connectivity message = true).
  { rewrite mentions_connectivity_two_tests.
    destruct Hword as [->| ->]; rewrite Hinc; [done|apply orb_true_r]. }
  split.
  - unfold errorBanner.
    destruct Hword as [->| ->]; rewrite Hinc; simpl;
      by rewrite ?andb_false_r.
  - destruct (onError_connectivity message variables now random36 clock b Hc)
      as (b' & sevs & Hsave & _ & Hrun).
    by exists b', sevs.
Qed.

Lemma any_message_mentioning_fetch_triggers_the_fallback_witness :
  errorBanner
    (Some (ErrorObject ("Validation failed: could not " +:+ "fetch" +:+ " author")))
  = None ∧
  ∃ b' sevs,
    saveLocalPost (fallbackPost Scenario.submitted 1717171717171
                     "0.4fzyo82mvyr" 1717171717171)
      (Scenario.browser_storing None)
    = (Ok tt, b', sevs) ∧
    onError
      (ErrorObject ("Validation failed: could not " +:+ "fetch" +:+ " author"))
      Scenario.submitted 1717171717171 "0.4fzyo82mvyr" 1717171717171
      (Scenario.browser_storing None)
    = (Ok tt, b',
       ConsoleWarn "サーバーに接続できません。ローカルストレージに保存します。"
       :: sevs ++ success_effects
                    (fallbackPost Scenario.submitted 1717171717171
                       "0.4fzyo82mvyr" 1717171717171)).
Proof.
  apply (any_message_mentioning_fetch_triggers_the_fallback
           "Validation failed: could not " " author" Scenario.submitted
           1717171717171 "0.4fzyo82mvyr" 1717171717171
           (Scenario.browser_storing None) "fetch").
  left. reflexivity.
Defined.

Lemma errorBanner_complement (message : string) :
  errorBanner (Some (ErrorObject message))
  = if mentions_connectivity message then None else Some message.
Proof.
  unfold errorBanner, mentions_connectivity.
  destruct (String_includes message "Failed to fetch"),
    (String_includes message "fetch"), (String_includes message "Network");
    reflexivity.
Qed.

(** X12. A failed create ends in exactly one of three ways.  An [Error]
    whose message is classified as connectivity hands the fallback post to
    save-one and shows the success panel, never the banner; any other [Error]
    only logs, leaves the browser as it was and shows its message in the
    banner; a thrown value that is not an [Error] only logs and leaves the
    form without any message. *)
Theorem failed_create_shows_success_or_banner_or_nothing (error : Thrown)
  (variables : CreatePostMutationVariables) (now : Z) (random36 : string)
  (clock : Z) (b : Browser) :
  ∃ b' evs,
    onError error variables now random36 clock b = (Ok tt, b', evs) ∧
    match error with
    | ErrorObject message =>
        if mentions_connectivity message
        then (∃ sevs,
                saveLocalPost (fallbackPost variables now random36 clock) b
                = (Ok tt, b', sevs)) ∧
             PostForm.PostForm (showSuccessMessage_after false evs) (Some error)
             = SuccessPanel
        else b' = b ∧ evs = [ConsoleError "投稿作成エラー:"] ∧
             PostForm.PostForm (showSuccessMessage_after false evs) (Some error)
             = Form (Some message)
    | NotAnError =>
        b' = b ∧ evs = [ConsoleError "投稿作成エラー:"] ∧
        PostForm.PostForm (showSuccessMessage_after false evs) (Some error)
        = Form None
    end.
Proof.
  destruct error as [message|].
  - destruct (mentions_connectivity message) eqn:Hc.
    + destruct (onError_connectivity message variables now random36 clock b Hc)
        as (b' & sevs & Hsave & Hev & Hrun).
      eexists _, _. split; [exact Hrun|]. split; [by exists sevs|].
      change (?x :: ?l ++ ?r) with ([x] ++ l ++ r).
      rewrite (showSuccessMessage_after_app false [_] (_ ++ _)).
      rewrite (showSuccessMessage_after_app _ sevs (success_effects _)).
      rewrite (showSuccessMessage_after_storage _ _ Hev). reflexivity.
    + exists b, [ConsoleError "投稿作成エラー:"].
      split; [by apply onError_other|]. repeat split.
      change (Form (errorBanner (Some (ErrorObject message)))
              = Form (Some message)).
      by rewrite errorBanner_complement, Hc.
  - exists b, [ConsoleError "投稿作成エラー:"].
    split; [by apply onError_other|]. done.
Qed.

(** X13. When the storage cannot be written, or there is no window, a
    connectivity-classified failure still announces success and schedules the
    navigation to the page of the generated identifier, although the browser
    storage is exactly what it was: the post is lost. *)
Theorem fallback_announces_success_even_if_nothing_was_saved
  (message : string) (variables : CreatePostMutationVariables) (now : Z)
  (random36 : string) (clock : Z) (b : Browser) :
  mentions_connectivity message = true →
  hasWindow b = false ∨ setItemRaises b = true →
  ∃ evs,
    onError (ErrorObject message) variables now random36 clock b
    = (Ok tt, b, evs) ∧
    showSuccessMessage_after false evs = true ∧
    SetTimeout
      [CallOnSuccess;
       RouterPush ("/posts/" +:+ generateLocalPostId now random36)] 2000
      ∈ evs ∧
    (∀ key, StorageSetItem key ∉ evs).
Proof.
  intros Hc Hfail.
  destruct (LocalStorageMore.saveLocalPost_unwritable
              (fallbackPost variables now random36 clock) b Hfail)
    as (sevs & Hsave & Hev).
  destruct (onError_connectivity message variables now random36 clock b Hc)
    as (b' & sevs' & Hsave' & Hev' & Hrun).
  rewrite Hsave in Hsave'. injection Hsave' as <- <-.
  eexists. split; [exact Hrun|]. split; [|split].
  - change (?x :: ?l ++ ?r) with ([x] ++ l ++ r).
    rewrite (showSuccessMessage_after_app false [_] (_ ++ _)).
    rewrite (showSuccessMessage_after_app _ sevs (success_effects _)).
    rewrite (showSuccessMessage_after_storage _ _ Hev'). reflexivity.
  - right. apply elem_of_app. right. unfold success_effects. do 5 right. left.
  - intros key [?|Hin]%elem_of_cons; [done|].
    apply elem_of_app in Hin as [Hin|Hin].
    + rewrite Forall_forall in Hev. by apply Hev in Hin.
    + unfold success_effects in Hin.
      repeat (apply elem_of_cons in Hin as [?|Hin]; [done|]).
      by apply elem_of_nil in Hin.
Qed.

Lemma fallback_announces_success_even_if_nothing_was_saved_witness :
  ∃ evs,
    onError (ErrorObject "Failed to fetch") Scenario.submitted
      1717171717171 "0.4fzyo82mvyr" 1717171717171
      {| hasWindow := true; getItemRaises := false; setItemRaises := true;
         items := ∅ |}
    = (Ok tt,
       {| hasWindow := true; getItemRaises := false; setItemRaises := true;
          items := ∅ |}, evs) ∧
    showSuccessMessage_after false evs = true ∧
    SetTimeout
      [CallOnSuccess;
       RouterPush ("/posts/" +:+ generateLocalPostId 1717171717171 "0.4fzyo82mvyr")]
      2000 ∈ evs ∧
    (∀ key, StorageSetItem key ∉ evs).
Proof.
  apply (fallback_announces_success_even_if_nothing_was_saved "Failed to fetch").
  - reflexivity.
  - right. reflexivity.
Defined.

End PostFormMore.

(** ** The tag editor and the submission *)

Module PostFormStateFacts.
Import JS Runtime PostFormState Terms.

Lemma Array_includes_elem_of (l : list string) (x : string) :
  Array_includes l x = true ↔ x ∈ l.
Proof.
  unfold Array_includes. induction l as [|y l IH]; simpl.
  - split; [done|]. intros H. by apply elem_of_nil in H.
  - rewrite orb_true_iff, IH, elem_of_cons, String.eqb_eq. done.
Qed.

Lemma remove_elem_of (t u : string) (l : list string) :
  u ∈ List.filter (fun tag => negb (String.eqb tag t)) l ↔ u ∈ l ∧ u ≠ t.
Proof.
  rewrite !list_elem_of_In, List.filter_In, negb_true_iff, String.eqb_neq.
  done.
Qed.

Lemma remove_absent (t : string) (l : list string) :
  t ∉ l → List.filter (fun tag => negb (String.eqb tag t)) l = l.
Proof.
  induction l as [|y l IH]; simpl; [done|].
  intros [Hy Hl]%not_elem_of_cons.
  destruct (String.eqb_spec y t) as [->|_]; [done|]. simpl. by rewrite IH.
Qed.

Lemma remove_NoDup (t : string) (l : list string) :
  NoDup l → NoDup (List.filter (fun tag => negb (String.eqb tag t)) l).
Proof.
  induction 1 as [|y l Hy Hnd IH]; simpl; [constructor|].
  destruct (negb (String.eqb y t)); [|done].
  constructor; [|done]. rewrite remove_elem_of. tauto.
Qed.

Section TagEditorFacts.

Variable trim : string -> string.

Lemma addTag_consistent (tag : string) (st : TagState) :
  tags_consistent st → tags_consistent (addTag trim tag st).
Proof.
  intros (Hnd & Hne & Hfield). unfold addTag.
  destruct (String.eqb_spec (trim tag) "") as [|Hnonempty]; simpl;
    [by repeat split|].
  destruct (Array_includes (tags st) (trim tag)) eqn:Hin; simpl;
    [by repeat split|].
  assert (Hfresh : trim tag ∉ tags st).
  { rewrite <- Array_includes_elem_of. by rewrite Hin. }
  repeat split; simpl.
  - apply NoDup_app. split; [done|]. split; [|apply NoDup_singleton].
    intros x Hx ->%list_elem_of_singleton. done.
  - apply Forall_app_2; [done|]. by constructor.
Qed.

Lemma removeTag_consistent (t : string) (st : TagState) :
  tags_consistent st → tags_consistent (removeTag t st).
Proof.
  intros (Hnd & Hne & Hfield). unfold removeTag. repeat split; simpl.
  - by apply remove_NoDup.
  - apply Forall_forall. intros u [Hu _]%remove_elem_of.
    rewrite Forall_forall in Hne. by apply Hne.
Qed.

(** X14. The tag editor stays consistent: if the tags are pairwise distinct
    and non-empty and the hidden form field is their comma-joined list, the
    same holds after adding a tag, removing a tag, pressing any key in the
    tag input, and submitting the form. *)
Theorem tag_editor_stays_consistent (st : TagState) :
  tags_consistent st →
  (∀ tag, tags_consistent (addTag trim tag st)) ∧
  (∀ t, tags_consistent (removeTag t st)) ∧
  (∀ key, tags_consistent (handleTagInputKeyDown trim key st).2) ∧
  (∀ data, tags_consistent (onSubmit trim data st).2).
Proof.
  intros Hst. split; [intros tag; by apply addTag_consistent|].
  split; [intros t; by apply removeTag_consistent|]. split.
  - intros key. unfold handleTagInputKeyDown.
    destruct (String.eqb key "Enter" || String.eqb key ","); simpl; [|done].
    destruct (negb (String.eqb (trim (tagInput st)) "")); [|done].
    by apply addTag_consistent.
  - intros data. unfold onSubmit. simpl.
    destruct (negb (String.eqb (trim (tagInput st)) "")); [|done].
    by apply addTag_consistent.
Qed.

Lemma addTag_fresh (tag : string) (st : TagState) :
  trim tag ≠ ""%string → trim tag ∉ tags st →
  tags (addTag trim tag st) = tags st ++ [trim tag] ∧
  tagInput (addTag trim tag st) = ""%string ∧
  tags (removeTag (trim tag) (addTag trim tag st)) = tags st.
Proof.
  intros Hne Hfresh. unfold addTag.
  destruct (String.eqb_spec (trim tag) "") as [|_]; [done|].
  destruct (Array_includes (tags st) (trim tag)) eqn:Hin.
  { apply Array_includes_elem_of in Hin. done. }
  simpl. repeat split.
  rewrite List.filter_app. simpl. rewrite String.eqb_refl. simpl.
  by rewrite app_nil_r, remove_absent.
Qed.

(** X15. Removing a tag that was just added gives back the former tags:
    when the trimmed text is not empty and not yet a tag, adding it puts it
    last and empties the tag input, and removing it restores the list; a
    text that trims to nothing, or to a tag already present, changes
    nothing. *)
Theorem remove_undoes_add (tag : string) (st : TagState) :
  (trim tag ≠ ""%string → trim tag ∉ tags st →
   tags (addTag trim tag st) = tags st ++ [trim tag] ∧
   tagInput (addTag trim tag st) = ""%string ∧
   tags (removeTag (trim tag) (addTag trim tag st)) = tags st) ∧
  (trim tag = ""%string ∨ trim tag ∈ tags st → addTag trim tag st = st).
Proof.
  split; [apply addTag_fresh|].
  intros Hskip. unfold addTag.
  destruct (String.eqb_spec (trim tag) "") as [|Hne]; [done|]. simpl.
  destruct Hskip as [?|Hin]; [done|].
  apply Array_includes_elem_of in Hin. by rewrite Hin.
Qed.

(** X16. A tag that is typed but not yet confirmed when the form is
    submitted is added to the editor, but it is not part of the variables
    sent to the create mutation: these carry the tags of the editor as they
    were, or no tag list at all when there was none. *)
Theorem submit_does_not_send_the_pending_tag (data : PostFormData)
  (st : TagState) :
  PostForm.tags (PostForm.input (onSubmit trim data st).1)
  = (if decide (tags st = []) then None else Some (tags st)) ∧
  PostForm.title (PostForm.input (onSubmit trim data st).1) = data_title data ∧
  PostForm.body (PostForm.input (onSubmit trim data st).1) = data_body data ∧
  PostForm.authorId (PostForm.input (onSubmit trim data st).1)
  = data_authorId data ∧
  (trim (tagInput st) ≠ ""%string → trim (tagInput st) ∉ tags st →
   trim (tagInput st) ∈ tags (onSubmit trim data st).2 ∧
   ∀ sent, PostForm.tags (PostForm.input (onSubmit trim data st).1) = Some sent →
           trim (tagInput st) ∉ sent).
Proof.
  assert (Hsent : PostForm.tags (PostForm.input (onSubmit trim data st).1)
                  = (if decide (tags st = []) then None else Some (tags st))).
  { unfold onSubmit. simpl. by destruct (tags st). }
  split; [exact Hsent|]. do 3 (split; [reflexivity|]).
  intros Hne Hfresh. split.
  - unfold onSubmit. simpl.
    destruct (String.eqb_spec (trim (tagInput st)) "") as [|_]; [done|]. simpl.
    destruct (addTag_fresh (tagInput st) st Hne Hfresh) as (-> & _).
    apply elem_of_app. right. left.
  - intros sent. rewrite Hsent. case_decide; [done|]. by intros [= <-].
Qed.

(** X17. Submission followed by the fallback keeps the tags: the post built
    by the fallback writer from the submitted variables carries exactly the
    tags of the editor at submission time (none of them if there was none),
    and the submitted title, body and author id. *)
Theorem fallback_post_carries_the_editor_tags (data : PostFormData)
  (st : TagState) (now : Z) (random36 : string) (clock : Z) :
  let localPost :=
    PostForm.fallbackPost (onSubmit trim data st).1 now random36 clock in
  LocalStorage.tags localPost = tags st ∧
  LocalStorage.title localPost = data_title data ∧
  LocalStorage.body localPost = data_body data ∧
  LocalStorage.author_id (LocalStorage.author localPost) = data_authorId data.
Proof.
  simpl. repeat split. by destruct (tags st).
Qed.

End TagEditorFacts.

Lemma tag_editor_stays_consistent_witness :
  tags_consistent {| tags := ["rocq"]; tagInput := " stdpp "; tagsField := "rocq" |} ∧
  tags_consistent
    (handleTagInputKeyDown trim_spaces "Enter"
       {| tags := ["rocq"]; tagInput := " stdpp "; tagsField := "rocq" |}).2 ∧
  (handleTagInputKeyDown trim_spaces "Enter"
     {| tags := ["rocq"]; tagInput := " stdpp "; tagsField := "rocq" |}).2
  = {| tags := ["rocq"; "stdpp"]; tagInput := ""; tagsField := "rocq,stdpp" |}.
Proof.
  assert (H : tags_consistent
                {| tags := ["rocq"]; tagInput := " stdpp "; tagsField := "rocq" |}).
  { repeat split; simpl; repeat constructor; try done.
    intros H. by apply elem_of_nil in H. }
  split; [exact H|]. split; [|reflexivity].
  apply (tag_editor_stays_consistent trim_spaces _ H).
Defined.

Lemma remove_undoes_add_witness :
  tags (addTag trim_spaces " stdpp "
          {| tags := ["rocq"]; tagInput := " stdpp "; tagsField := "rocq" |})
  = ["rocq"] ++ [trim_spaces " stdpp "] ∧
  tagInput (addTag trim_spaces " stdpp "
              {| tags := ["rocq"]; tagInput := " stdpp "; tagsField := "rocq" |})
  = ""%string ∧
  tags (removeTag (trim_spaces " stdpp ")
          (addTag trim_spaces " stdpp "
             {| tags := ["rocq"]; tagInput := " stdpp "; tagsField := "rocq" |}))
  = ["rocq"].
Proof.
  apply (remove_undoes_add trim_spaces " stdpp "
           {| tags := ["rocq"]; tagInput := " stdpp "; tagsField := "rocq" |}).
  - discriminate.
  - simpl. intros [?|?%elem_of_nil]%elem_of_cons; done.
Defined.

Lemma submit_does_not_send_the_pending_tag_witness :
  PostForm.tags
    (PostForm.input
       (onSubmit trim_spaces
          {| data_title := "t"; data_body := "b"; data_tags := Some "rocq";
             data_authorId := "1" |}
          {| tags := ["rocq"]; tagInput := " stdpp "; tagsField := "rocq" |}).1)
  = Some ["rocq"] ∧
  tags (onSubmit trim_spaces
          {| data_title := "t"; data_body := "b"; data_tags := Some "rocq";
             data_authorId := "1" |}
          {| tags := ["rocq"]; tagInput := " stdpp "; tagsField := "rocq" |}).2
  = ["rocq"; "stdpp"].
Proof.
  destruct (submit_does_not_send_the_pending_tag trim_spaces
              {| data_title := "t"; data_body := "b"; data_tags := Some "rocq";
                 data_authorId := "1" |}
              {| tags := ["rocq"]; tagInput := " stdpp "; tagsField := "rocq" |})
    as (Hsent & _).
  split; [exact Hsent|reflexivity].
Defined.

End PostFormStateFacts.

(** ** The success callback of the create mutation *)

Module CreateSuccessFacts.
Import JS Runtime PostFormState LocalStorage Vocabulary Terms LocalStorageFacts.

(** X18. The success callback never raises and always shows the success
    message and asks for the listing to be invalidated, whether the created
    post is present or not, whether the backup could be written or not, and
    however the refresh goes; the navigation to the page of the post is
    scheduled exactly when a post with a non-empty identifier came back. *)
Theorem create_success_always_announces_success (data : option CreatedPost)
  (refresh : RefreshOutcome) (b : Browser) :
  ∃ b' evs destination,
    onSuccess data refresh b = (Ok tt, b', evs) ∧
    Base (InvalidateQueries "GetPosts") ∈ evs ∧
    Base (SetShowSuccessMessage true) ∈ evs ∧
    Base (SetTimeout (CallOnSuccess :: destination) 2000) ∈ evs ∧
    destination
    = match data with
      | Some createPost =>
          if decide (created_id createPost = "")
          then []
          else [RouterPush ("/posts/" +:+ created_id createPost)]
      | None => []
      end ∧
    (data = None → b' = b).
Proof.
  unfold onSuccess. destruct data as [createPost|].
  - destruct (saveLocalPost_total (mirror createPost) b)
      as (b' & sevs & -> & _).
    eexists b', _, _. split; [reflexivity|].
    split; [apply elem_of_app; right; left|].
    split.
    { apply elem_of_app. right. right. apply elem_of_app. right. left. }
    split.
    { apply elem_of_app. right. right. apply elem_of_app. right.
      do 4 right. left. }
    split; [|done].
    destruct (String.eqb_spec (created_id createPost) "") as [E|E];
      [by rewrite decide_True|by rewrite decide_False].
  - eexists b, _, _. split; [reflexivity|].
    split; [left|]. split.
    { right. apply elem_of_app. right. left. }
    split; [|done]. right. apply elem_of_app. right. do 4 right. left.
Qed.

(** X19. After a successful create on a usable storage, get-one of the
    identifier of the created post returns its backup copy, which carries the
    identifier, title, body, publication time and author of the created post,
    its tags (none if they are absent) and its avatar URL (none if it is
    absent or empty). *)
Theorem create_success_leaves_a_backup_copy (createPost : CreatedPost)
  (refresh : RefreshOutcome) (b : Browser) (ps : list LocalPost) :
  holds b ps →
  ∃ b' evs evs',
    onSuccess (Some createPost) refresh b = (Ok tt, b', evs) ∧
    holds b' (saved (mirror createPost) ps) ∧
    getLocalPost (created_id createPost) b'
    = (Ok (Some (toJSON (mirror createPost))), b', evs') ∧
    id (mirror createPost) = created_id createPost ∧
    title (mirror createPost) = created_title createPost ∧
    body (mirror createPost) = created_body createPost ∧
    publishedAt (mirror createPost) = created_publishedAt createPost ∧
    tags (mirror createPost) = default [] (created_tags createPost) ∧
    author_id (author (mirror createPost))
    = created_author_id (created_author createPost) ∧
    author_name (author (mirror createPost))
    = created_author_name (created_author createPost) ∧
    author_avatarUrl (author (mirror createPost))
    = match created_author_avatarUrl (created_author createPost) with
      | Some u => if decide (u = "") then None else Some u
      | None => None
      end.
Proof.
  intros Hb. pose proof Hb as [Hop _]. unfold onSuccess.
  rewrite (saveLocalPost_operational (mirror createPost) b ps Hb).
  eexists _, _, _. split; [reflexivity|].
  split; [by apply holds_with_items|]. split.
  { rewrite (getLocalPost_operational (created_id createPost) _
               (saved (mirror createPost) ps))
      by (by apply holds_with_items).
    change (created_id createPost) with (id (mirror createPost)).
    by rewrite LocalStorageMore.list_find_saved_same. }
  do 6 (split; [reflexivity|]). split; [reflexivity|]. simpl.
  destruct (created_author_avatarUrl (created_author createPost)) as [u|];
    [|done].
  destruct (String.eqb_spec u "") as [E|E];
    [by rewrite decide_True|by rewrite decide_False].
Qed.

Lemma create_success_leaves_a_backup_copy_witness :
  ∃ b' evs evs',
    onSuccess
      (Some {| created_id := "42"; created_title := "A"; created_body := "text";
               created_tags := None; created_publishedAt := "2024-01-01T00:00:00Z";
               created_author :=
                 {| created_author_id := "1"; created_author_name := "x";
                    created_author_avatarUrl := Some "" |} |})
      RefetchRejected (Scenario.browser_storing None)
    = (Ok tt, b', evs) ∧
    getLocalPost "42" b'
    = (Ok (Some (toJSON
                   {| id := "42"; title := "A"; body := "text"; tags := [];
                      publishedAt := "2024-01-01T00:00:00Z";
                      author := {| author_id := "1"; author_name := "x";
                                   author_avatarUrl := None |} |})),
       b', evs').
Proof.
  assert (H : holds (Scenario.browser_storing None) []).
  { split; [by repeat split|]. vm_compute. reflexivity. }
  destruct (create_success_leaves_a_backup_copy
              {| created_id := "42"; created_title := "A"; created_body := "text";
                 created_tags := None; created_publishedAt := "2024-01-01T00:00:00Z";
                 created_author :=
                   {| created_author_id := "1"; created_author_name := "x";
                      created_author_avatarUrl := Some "" |} |}
              RefetchRejected (Scenario.browser_storing None) [] H)
    as (b' & evs & evs' & Hrun & _ & Hget & _).
  exists b', evs, evs'. split; [exact Hrun|exact Hget].
Defined.

End CreateSuccessFacts.

(** ** What the detail view shows *)

Module DetailViewFacts.
Import JS Runtime PostDetailView LocalStorage Vocabulary Terms
  LocalStorageFacts.

(** The loading effect on a usable storage: the state it sets. *)
Lemma loadLocalPost_state (postId : string) (b : Browser)
  (ps : list LocalPost) :
  holds b ps →
  ∃ evs,
    PostDetail.loadLocalPost postId b
    = (Ok (toJSON <$> localPost_state postId ps), b, evs).
Proof.
  intros Hb. unfold PostDetail.loadLocalPost, localPost_state.
  destruct (String_startsWith postId "local_").
  - eexists. by apply getLocalPost_operational.
  - by exists [].
Qed.

Lemma PostDetail_without_remote (q : QueryState) (localPost : option LocalPost) :
  isLoading q = false →
  data q = None ∨ data q = Some {| post := None |} →
  PostDetail q localPost
  = match localPost with
    | Some lp => Detail (FromLocal lp)
    | None => NotFound
    end.
Proof.
  intros Hl Hd. unfold PostDetail, selectPost. rewrite Hl.
  destruct Hd as [-> | ->]; by destruct localPost.
Qed.

(** X20. The backup copy of a remote post is never shown: right after the
    create success callback has saved the copy of a post whose identifier
    lacks the [local_] prefix, the loading effect of the detail view for that
    identifier does not read the storage, and when the remote query yields no
    post the view is "not found" although the copy is in local storage. *)
Theorem backup_copy_is_not_shown_by_the_detail_view
  (createPost : PostFormState.CreatedPost)
  (refresh : PostFormState.RefreshOutcome) (b : Browser)
  (ps : list LocalPost) (q : QueryState) :
  holds b ps →
  String_startsWith (PostFormState.created_id createPost) "local_" = false →
  isLoading q = false →
  data q = None ∨ data q = Some {| post := None |} →
  ∃ b' evs,
    PostFormState.onSuccess (Some createPost) refresh b = (Ok tt, b', evs) ∧
    holds b' (saved (PostFormState.mirror createPost) ps) ∧
    PostFormState.mirror createPost ∈ saved (PostFormState.mirror createPost) ps ∧
    PostDetail.loadLocalPost (PostFormState.created_id createPost) b'
    = (Ok None, b', []) ∧
    PostDetail q
      (localPost_state (PostFormState.created_id createPost)
         (saved (PostFormState.mirror createPost) ps))
    = NotFound.
Proof.
  intros Hb Hprefix Hl Hd. pose proof Hb as [Hop _].
  unfold PostFormState.onSuccess.
  rewrite (saveLocalPost_operational (PostFormState.mirror createPost) b ps Hb).
  eexists _, _. split; [reflexivity|].
  split; [by apply holds_with_items|]. split; [apply elem_of_saved|].
  unfold PostDetail.loadLocalPost, localPost_state. rewrite Hprefix.
  split; [reflexivity|]. by rewrite PostDetail_without_remote.
Qed.

(** X21. A post written by the fallback is shown by the detail view the
    form navigates to: after a connectivity-classified create failure on a
    usable storage, the loading effect for the generated identifier finds the
    fallback post, and when the remote query yields no post the view displays
    it, with the submitted title. *)
Theorem fallback_post_is_shown_by_the_detail_view (message : string)
  (variables : PostForm.CreatePostMutationVariables) (now : Z)
  (random36 : string) (clock : Z) (b : Browser) (ps : list LocalPost)
  (q : QueryState) :
  PostForm.mentions_connectivity message = true → holds b ps →
  isLoading q = false →
  data q = None ∨ data q = Some {| post := None |} →
  let localPost := PostForm.fallbackPost variables now random36 clock in
  ∃ b' evs evs',
    PostForm.onError (ErrorObject message) variables now random36 clock b
    = (Ok tt, b', evs) ∧
    SetTimeout [CallOnSuccess; RouterPush ("/posts/" +:+ id localPost)] 2000
      ∈ evs ∧
    PostDetail.loadLocalPost (id localPost) b'
    = (Ok (Some (toJSON localPost)), b', evs') ∧
    PostDetail q (localPost_state (id localPost) (saved localPost ps))
    = Detail (FromLocal localPost) ∧
    shown_title (FromLocal localPost) = PostForm.title (PostForm.input variables).
Proof.
  intros Hc Hb Hl Hd localPost.
  destruct (PostFormFacts.onError_connectivity_holds message variables now
              random36 clock b ps Hc Hb) as (b' & evs & Hrun & Hb' & Hevs & _).
  assert (Hstate : localPost_state (id localPost) (saved localPost ps)
                   = Some localPost).
  { unfold localPost_state.
    replace (String_startsWith (id localPost) "local_") with true
      by (symmetry; apply PostFormFacts.generated_id_is_local).
    apply LocalStorageMore.list_find_saved_same. }
  destruct (loadLocalPost_state (id localPost) b' (saved localPost ps) Hb')
    as (evs' & Hload).
  rewrite Hstate in Hload.
  exists b', evs, evs'. split; [exact Hrun|]. split.
  { rewrite Hevs. right. apply elem_of_app. right.
    unfold success_effects. do 5 right. left. }
  split; [exact Hload|]. split; [|reflexivity].
  by rewrite Hstate, PostDetail_without_remote.
Qed.

(** X22. After the deletion of a [local_] identifier on a usable storage,
    whether the remote deletion succeeded or failed, the loading effect for
    that identifier finds nothing, and when the remote query yields no post
    the detail view is "not found". *)
Theorem deleted_local_post_is_not_found (postId : string)
  (remote : PostDetail.RemoteOutcome) (b : Browser) (ps : list LocalPost)
  (q : QueryState) :
  String_startsWith postId "local_" = true → holds b ps →
  isLoading q = false →
  data q = None ∨ data q = Some {| post := None |} →
  ∃ b' evs evs',
    PostDetail.deleteMutation_mutate postId remote b = (Ok tt, b', evs) ∧
    PostDetail.loadLocalPost postId b' = (Ok None, b', evs') ∧
    PostDetail q
      (localPost_state postId (filter (fun p => id p ≠ postId) ps))
    = NotFound.
Proof.
  intros Hprefix Hb Hl Hd. pose proof Hb as [Hop _].
  destruct (PostDetailFacts.deleteMutation_mutate_run postId remote b)
    as (b' & evs & Hrun & H).
  rewrite Hprefix in H. destruct H as (sevs & Hdel & _ & _).
  rewrite (deleteLocalPost_operational postId b ps Hb) in Hdel.
  injection Hdel as <- _.
  assert (Hstate : localPost_state postId (filter (fun p => id p ≠ postId) ps)
                   = None).
  { unfold localPost_state. rewrite Hprefix.
    by rewrite LocalStorageMore.list_find_filter_gone. }
  destruct (loadLocalPost_state postId _
              (filter (fun p => id p ≠ postId) ps)
              (holds_with_items b _ Hop)) as (evs' & Hload).
  rewrite Hstate in Hload.
  eexists _, _, evs'. split; [exact Hrun|]. split; [exact Hload|].
  by rewrite Hstate, PostDetail_without_remote.
Qed.

Lemma empty_storage_holds : holds (Scenario.browser_storing None) [].
Proof. split; [by repeat split|]. vm_compute. reflexivity. Qed.

Lemma backup_copy_is_not_shown_by_the_detail_view_witness :
  ∃ b' evs,
    PostFormState.onSuccess
      (Some {| PostFormState.created_id := "42";
               PostFormState.created_title := "A";
               PostFormState.created_body := "text";
               PostFormState.created_tags := Some [];
               PostFormState.created_publishedAt := "2024-01-01T00:00:00Z";
               PostFormState.created_author :=
                 {| PostFormState.created_author_id := "1";
                    PostFormState.created_author_name := "x";
                    PostFormState.created_author_avatarUrl := None |} |})
      PostFormState.Refreshed (Scenario.browser_storing None)
    = (Ok tt, b', evs) ∧
    PostDetail.loadLocalPost "42" b' = (Ok None, b', []).
Proof.
  destruct (backup_copy_is_not_shown_by_the_detail_view
              {| PostFormState.created_id := "42";
                 PostFormState.created_title := "A";
                 PostFormState.created_body := "text";
                 PostFormState.created_tags := Some [];
                 PostFormState.created_publishedAt := "2024-01-01T00:00:00Z";
                 PostFormState.created_author :=
                   {| PostFormState.created_author_id := "1";
                      PostFormState.created_author_name := "x";
                      PostFormState.created_author_avatarUrl := None |} |}
              PostFormState.Refreshed (Scenario.browser_storing None) []
              {| data := None; isLoading := false;
                 error := Some (ErrorObject "Failed to fetch") |}
              empty_storage_holds eq_refl eq_refl (or_introl eq_refl))
    as (b' & evs & Hrun & _ & _ & Hload & _).
  exists b', evs. split; [exact Hrun|exact Hload].
Defined.

Lemma fallback_post_is_shown_by_the_detail_view_witness :
  ∃ b' evs evs',
    PostForm.onError (ErrorObject "Failed to fetch") Scenario.submitted
      1717171717171 "0.4fzyo82mvyr" 1717171717171 (Scenario.browser_storing None)
    = (Ok tt, b', evs) ∧
    PostDetail.loadLocalPost "local_1717171717171_4fzyo82mv" b'
    = (Ok (Some (toJSON (PostForm.fallbackPost Scenario.submitted
                           1717171717171 "0.4fzyo82mvyr" 1717171717171))),
       b', evs').
Proof.
  destruct (fallback_post_is_shown_by_the_detail_view "Failed to fetch"
              Scenario.submitted 1717171717171 "0.4fzyo82mvyr" 1717171717171
              (Scenario.browser_storing None) []
              {| data := Some {| post := None |}; isLoading := false;
                 error := None |}
              eq_refl empty_storage_holds eq_refl (or_intror eq_refl))
    as (b' & evs & evs' & Hrun & _ & Hload & _).
  exists b', evs, evs'. split; [exact Hrun|exact Hload].
Defined.

Lemma deleted_local_post_is_not_found_witness :
  ∃ b' evs evs',
    PostDetail.deleteMutation_mutate "local_999"
      (PostDetail.Rejected (ErrorObject "Failed to fetch"))
      (Scenario.browser_storing
         (Scenario.collection [Scenario.local_1; Scenario.local_999]))
    = (Ok tt, b', evs) ∧
    PostDetail.loadLocalPost "local_999" b' = (Ok None, b', evs').
Proof.
  destruct (deleted_local_post_is_not_found "local_999"
              (PostDetail.Rejected (ErrorObject "Failed to fetch"))
              (Scenario.browser_storing
                 (Scenario.collection [Scenario.local_1; Scenario.local_999]))
              [Scenario.local_1; Scenario.local_999]
              {| data := None; isLoading := false;
                 error := Some (ErrorObject "Failed to fetch") |}
              eq_refl LocalStorageMore.sample_storage_holds eq_refl
              (or_introl eq_refl))
    as (b' & evs & evs' & Hrun & Hload & _).
  exists b', evs, evs'. split; [exact Hrun|exact Hload].
Defined.

End DetailViewFacts.

(** ** More on the list view *)

Module PostListMore.
Import JS PostList Vocabulary Terms PostListFacts.

Lemma first_occurrences_nil (l : list PostSummary) :
  first_occurrences l = [] ↔ l = [].
Proof. destruct l; simpl; split; congruence. Qed.

Section ListView.

Variable getTime : string -> option Z.

(** X23. Once the query is no longer loading, the list view shows the "no
    posts" state exactly when there is neither a remote nor a local post;
    otherwise it lists at least one entry and at most as many as there are
    remote and local posts together. *)
Theorem no_posts_state_iff_nothing_to_show (showCreateForm : bool)
  (localPosts : list LocalStorage.LocalPost) (q : QueryState) :
  isLoading q = false →
  (PostList getTime showCreateForm localPosts q = Page showCreateForm NoPosts
   ↔ serverPosts (data q) = [] ∧ localPosts = []) ∧
  (∀ entries,
     PostList getTime showCreateForm localPosts q
     = Page showCreateForm (PostLinks entries) →
     0 < length entries ≤ length (serverPosts (data q)) + length localPosts).
Proof.
  intros Hl. unfold PostList. rewrite Hl.
  pose proof (mergedPosts_perm getTime (data q) localPosts) as Hperm.
  pose proof (first_occurrences_sublist
                (serverPosts (data q) ++ convertedLocalPosts localPosts)) as Hsub.
  apply sublist_length in Hsub.
  rewrite <- Hperm, length_app in Hsub.
  unfold convertedLocalPosts in Hsub at 1. rewrite length_map in Hsub.
  destruct (mergedPosts getTime (data q) localPosts) as [|e es] eqn:E; simpl.
  - split; [|intros entries [=]]. split; [intros _|done].
    symmetry in Hperm. apply Permutation_nil_r in Hperm.
    apply first_occurrences_nil, app_eq_nil in Hperm as [HR HL].
    split; [done|]. destruct localPosts; [done|discriminate].
  - split.
    + split; [done|]. intros [HR ->]. exfalso.
      unfold mergedPosts, allPosts in E. rewrite HR in E. discriminate.
    + intros entries [= <-]. simpl in *. lia.
Qed.

End ListView.

End PostListMore.

(** ** The list view after writes, and the endpoint *)

Module ListAfterWrites.
Import JS Runtime PostList Vocabulary Terms PostListFacts LocalStorageFacts.

Lemma find_by_id_converted (i : string) (L : list LocalStorage.LocalPost) :
  find_by_id i (convertedLocalPosts L)
  = (fun lp => {| id := LocalStorage.id lp;
                  title := LocalStorage.title lp;
                  publishedAt := LocalStorage.publishedAt lp;
                  author := {| name := LocalStorage.author_name
                                         (LocalStorage.author lp) |} |})
    <$> (snd <$> list_find (fun p => LocalStorage.id p = i) L).
Proof.
  induction L as [|lp L IH]; [done|].
  cbn [convertedLocalPosts map list_find]. rewrite find_by_id_cons. simpl.
  destruct (String.eqb_spec (LocalStorage.id lp) i) as [E|E].
  - by rewrite decide_True.
  - rewrite decide_False by done. unfold convertedLocalPosts in IH.
    rewrite IH. by destruct (list_find _ L) as [[k p]|].
Qed.

Section AfterWrites.

Variable getTime : string -> option Z.

Lemma mergedPosts_find (i : string) (data : option GetPostsQuery)
  (L : list LocalStorage.LocalPost) :
  find_by_id i (mergedPosts getTime data L)
  = find_by_id i (serverPosts data ++ convertedLocalPosts L).
Proof.
  rewrite <- (first_occurrences_find i (serverPosts data ++ convertedLocalPosts L)).
  symmetry. apply find_by_id_perm; [apply first_occurrences_NoDup|].
  symmetry. apply mergedPosts_perm.
Qed.

(** X24. A post written by the fallback appears in the list: after a
    connectivity-classified create failure on a usable storage, whatever the
    remote collection, if no remote entry carries the generated identifier
    the list view built from the stored collection shows, for that
    identifier, the submitted title, the current time and the looked-up
    author name. *)
Theorem fallback_post_appears_in_the_list (message : string)
  (variables : PostForm.CreatePostMutationVariables) (now : Z)
  (random36 : string) (clock : Z) (b : Browser)
  (ps : list LocalStorage.LocalPost) (data : option GetPostsQuery) :
  PostForm.mentions_connectivity message = true → holds b ps →
  LocalStorage.generateLocalPostId now random36 ∉ map id (serverPosts data) →
  ∃ b' evs L,
    PostForm.onError (ErrorObject message) variables now random36 clock b
    = (Ok tt, b', evs) ∧
    holds b' L ∧
    find_by_id (LocalStorage.generateLocalPostId now random36)
      (mergedPosts getTime data L)
    = Some {| id := LocalStorage.generateLocalPostId now random36;
              title := PostForm.title (PostForm.input variables);
              publishedAt := JSDate.toISOString clock;
              author :=
                {| name := PostForm.authorName_of
                             (PostForm.authorId (PostForm.input variables)) |} |}.
Proof.
  intros Hc Hb Hfresh.
  destruct (PostFormFacts.onError_connectivity_holds message variables now
              random36 clock b ps Hc Hb) as (b' & evs & Hrun & Hb' & _).
  eexists b', evs, _. split; [exact Hrun|]. split; [exact Hb'|].
  rewrite mergedPosts_find, find_by_id_app.
  apply find_by_id_None in Hfresh. rewrite Hfresh.
  rewrite find_by_id_converted.
  change (LocalStorage.generateLocalPostId now random36)
    with (LocalStorage.id (PostForm.fallbackPost variables now random36 clock))
    at 1.
  by rewrite LocalStorageMore.list_find_saved_same.
Qed.

(** X25. Local posts whose identifiers are all known remotely, such as the
    backup copies of posts created online, do not change the list: the view
    is the one built from the remote collection alone. *)
Theorem local_copies_of_remote_posts_do_not_change_the_list
  (data : option GetPostsQuery) (L : list LocalStorage.LocalPost) :
  (∀ lp, lp ∈ L → LocalStorage.id lp ∈ map id (serverPosts data)) →
  mergedPosts getTime data L = mergedPosts getTime data [].
Proof.
  intros Hcovered. unfold mergedPosts, allPosts. f_equal.
  change (convertedLocalPosts []) with (@nil PostSummary). rewrite app_nil_r.
  unfold uniquePosts at 1. rewrite fold_left_app.
  fold (uniquePosts (serverPosts data)). rewrite uniquePosts_fold.
  rewrite <- (app_nil_r (uniquePosts (serverPosts data))) at 2. f_equal.
  set (C := first_occurrences (convertedLocalPosts L)).
  assert (Hall : Forall (fun c => id c ∈ map id (uniquePosts (serverPosts data))) C).
  { apply Forall_forall. intros c Hc. unfold C in Hc.
    eapply elem_of_submseteq in Hc;
      [|apply sublist_submseteq, first_occurrences_sublist].
    apply list_elem_of_fmap in Hc as (lp & -> & Hlp).
    rewrite uniquePosts_first_occurrences, first_occurrences_ids.
    by apply Hcovered. }
  clearbody C. induction Hall as [|c r Hc Hr IH]; [done|].
  rewrite filter_cons. case_decide; [done|exact IH].
Qed.

End AfterWrites.

End ListAfterWrites.

Module EndpointFacts.
Import GraphqlClient.

(** X26. The GraphQL endpoint is never empty: in the browser it is the
    environment variable when that is set to a non-empty text, and in every
    other case, the server side included, the local default. *)
Theorem endpoint_is_never_empty (hasWindow : bool) (env : option string) :
  getGraphQLEndpoint hasWindow env ≠ ""%string ∧
  (hasWindow = false →
   getGraphQLEndpoint hasWindow env = "http://127.0.0.1:8000/api/graphql"%string) ∧
  (∀ endpoint, hasWindow = true → env = Some endpoint → endpoint ≠ ""%string →
               getGraphQLEndpoint hasWindow env = endpoint) ∧
  (env = None ∨ env = Some ""%string →
   getGraphQLEndpoint hasWindow env = "http://127.0.0.1:8000/api/graphql"%string).
Proof.
  unfold getGraphQLEndpoint. split; [|split; [|split]].
  - destruct hasWindow; [|done]. destruct env as [e|]; [|done].
    destruct (String.eqb_spec e ""); done.
  - by intros ->.
  - intros endpoint -> -> Hne. by destruct (String.eqb_spec endpoint "").
  - intros [-> | ->]; by destruct hasWindow.
Qed.

Lemma endpoint_is_never_empty_witness :
  getGraphQLEndpoint true (Some "https://blog.example/api/graphql")
  = "https://blog.example/api/graphql"%string ∧
  getGraphQLEndpoint false (Some "https://blog.example/api/graphql")
  = "http://127.0.0.1:8000/api/graphql"%string.
Proof.
  destruct (endpoint_is_never_empty true
              (Some "https://blog.example/api/graphql"))
    as (_ & _ & Hset & _).
  destruct (endpoint_is_never_empty false
              (Some "https://blog.example/api/graphql"))
    as (_ & Hserver & _).
  split; [apply Hset; done|by apply Hserver].
Defined.

End EndpointFacts.

Module ListWitnesses.
Import JS Runtime PostList Vocabulary Terms.

Lemma no_posts_state_iff_nothing_to_show_witness :
  isLoading (Scenario.settled [Scenario.remote_1]) = false ∧
  (PostList JSDate.getTime false [Scenario.local_999]
     (Scenario.settled [Scenario.remote_1])
   = Page false NoPosts
   ↔ serverPosts (data (Scenario.settled [Scenario.remote_1])) = [] ∧
     [Scenario.local_999] = []).
Proof.
  split; [reflexivity|].
  apply (PostListMore.no_posts_state_iff_nothing_to_show JSDate.getTime false
           [Scenario.local_999] (Scenario.settled [Scenario.remote_1])).
  reflexivity.
Defined.

Lemma fallback_post_appears_in_the_list_witness :
  ∃ b' evs L,
    PostForm.onError (ErrorObject "Failed to fetch") Scenario.submitted
      1717171717171 "0.4fzyo82mvyr" 1717171717171 (Scenario.browser_storing None)
    = (Ok tt, b', evs) ∧
    holds b' L ∧
    find_by_id (LocalStorage.generateLocalPostId 1717171717171 "0.4fzyo82mvyr")
      (mergedPosts JSDate.getTime (Some {| posts := [Scenario.remote_1] |}) L)
    = Some {| id := LocalStorage.generateLocalPostId 1717171717171 "0.4fzyo82mvyr";
              title := "Offline draft";
              publishedAt := JSDate.toISOString 1717171717171;
              author := {| name := PostForm.authorName_of "3" |} |}.
Proof.
  apply (ListAfterWrites.fallback_post_appears_in_the_list JSDate.getTime
           "Failed to fetch" Scenario.submitted 1717171717171 "0.4fzyo82mvyr"
           1717171717171 (Scenario.browser_storing None) []
           (Some {| posts := [Scenario.remote_1] |})).
  - reflexivity.
  - exact DetailViewFacts.empty_storage_holds.
  - intros [?|?%elem_of_nil]%elem_of_cons; [discriminate|done].
Defined.

Lemma local_copies_of_remote_posts_do_not_change_the_list_witness :
  mergedPosts JSDate.getTime (Some {| posts := [Scenario.remote_1] |})
    [Scenario.local_1]
  = mergedPosts JSDate.getTime (Some {| posts := [Scenario.remote_1] |}) [].
Proof.
  apply (ListAfterWrites.local_copies_of_remote_posts_do_not_change_the_list
           JSDate.getTime).
  intros lp ->%list_elem_of_singleton. left.
Defined.

End ListWitnesses.

(** ** Safety of the persistence operations *)

Module StorageSafety.
Import JS Runtime LocalStorage Vocabulary Terms LocalStorageFacts.

Lemma getLocalPosts_degrades (b : Browser) :
  ∃ v evs,
    getLocalPosts b = (Ok v, b, evs) ∧ Forall console_only evs ∧
    (hasWindow b = false ∨ getItemRaises b = true ∨
     items b !! STORAGE_KEY = None ∨ items b !! STORAGE_KEY = Some Blank ∨
     items b !! STORAGE_KEY = Some Malformed →
     v = JArr []).
Proof.
  destruct b as [hw gr sr its].
  unfold getLocalPosts, bind, try_catch, get_browser, localStorage_getItem.
  simpl. unfold bind, get_browser. simpl.
  destruct hw; simpl.
  2: { exists (JArr []), []. repeat split. constructor. }
  destruct gr; simpl.
  { eexists (JArr []), _. split; [reflexivity|]. split; [|done].
    repeat constructor. }
  destruct (its !! STORAGE_KEY) as [[| |v]|]; simpl;
    eexists _, _; (split; [reflexivity|]); (split; [repeat constructor|]);
    try done.
  intros [?|[?|[?|[?|?]]]]; done.
Qed.

(** X27. Whatever the state of the browser, get-all, save-one and delete-one
    return normally.  get-all leaves the browser as it is and answers the
    empty array when there is no window, when reading is denied, and when
    the stored text is absent, empty or unparseable; save-one and delete-one
    do nothing but write the storage and report on the console. *)
Theorem get_all_save_and_delete_never_raise (post : LocalPost)
  (target : string) (b : Browser) :
  (∃ v evs,
     getLocalPosts b = (Ok v, b, evs) ∧ Forall console_only evs ∧
     (hasWindow b = false ∨ getItemRaises b = true ∨
      items b !! STORAGE_KEY = None ∨ items b !! STORAGE_KEY = Some Blank ∨
      items b !! STORAGE_KEY = Some Malformed →
      v = JArr [])) ∧
  (∃ b' evs,
     saveLocalPost post b = (Ok tt, b', evs) ∧ Forall storage_event evs) ∧
  (∃ b' evs,
     deleteLocalPost target b = (Ok tt, b', evs) ∧ Forall storage_event evs).
Proof.
  split; [apply getLocalPosts_degrades|].
  split; [apply saveLocalPost_total|apply deleteLocalPost_total].
Qed.

End StorageSafety.
